(** * Beyla process tracer: a shallow embedding of the orchestrator,
      the Go tracer bundle and the internal metrics reporter.

    Packages are Modules ([imetrics], [common], [gotracer], [ebpf]); external
    collaborators (the kernel, cilium/ebpf, prometheus, the attachment helpers
    of the instrumenter) are fields of an environment record or Section
    variables.  Definitions come first, theorems after them. *)

From Stdlib Require Import ZArith.
From Stdlib Require Import Floats.PrimFloat.
From Stdlib Require Import Numbers.Cyclic.Int63.Uint63.
From stdpp Require Import base option list gmap sets strings.

Local Open Scope Z_scope.

(** ** Go values shared by the packages *)

(** Go's [float64(n)] for an [int] (64-bit, two's complement): the nearest
    binary64, ties to even; the integer itself up to 2^53 in magnitude. *)
Definition float64 (n : Z) : float :=
  if decide (n = - 2 ^ 63) then (-9223372036854775808)%float
  else if decide (n < 0) then PrimFloat.opp (PrimFloat.of_uint63 (Uint63.of_Z (- n)))
  else PrimFloat.of_uint63 (Uint63.of_Z n).

(** Go's [uint32(n)] conversion of an integer: reduction modulo 2^32. *)
Definition uint32 (n : Z) : Z := n mod 2 ^ 32.

(** ** Package imetrics (src/unnamed/part_000) *)
Module imetrics.

(** [pipelineBufferLengths]: buckets of the histograms about the number of
    traces submitted from one stage to another. *)
Definition pipelineBufferLengths : list float :=
  [0; 10; 20; 40; 80; 160; 320]%float.

Record PrometheusConfig := {
  Port : Z;
  Path : string;
}.

(** prometheus.Histogram, as far as the reporter uses it: the bucket bounds
    given at creation and the observations made so far, oldest first. *)
Record Histogram := {
  hist_name : string;
  Buckets : list float;
  observations : list float;
}.

Definition NewHistogram (name : string) (buckets : list float) : Histogram :=
  {| hist_name := name; Buckets := buckets; observations := [] |}.

Definition Observe (h : Histogram) (v : float) : Histogram :=
  {| hist_name := hist_name h; Buckets := Buckets h;
     observations := observations h ++ [v] |}.

(** prometheus.DefBuckets, the library's default bounds. *)
#[warnings="-inexact-float"]
Definition DefBuckets : list float :=
  [0.005; 0.01; 0.025; 0.05; 0.1; 0.25; 0.5; 1; 2.5; 5; 10]%float.

(** Counters and gauges hold a float; the vectors are keyed by their label
    values (one label, or port and path joined). *)
Record PrometheusReporter := {
  tracerFlushes : Histogram;
  otelMetricExports : float;
  otelMetricExportErrs : gmap string float;
  otelTraceExports : float;
  otelTraceExportErrs : gmap string float;
  prometheusRequests : gmap (string * string) float;
  instrumentedProcesses : gmap string float;
  beylaInfo : float;
  informerAddDuration : gmap string Histogram;
  informerUpdateDuration : gmap string Histogram;
}.

Definition NewPrometheusReporter (cfg : PrometheusConfig) : PrometheusReporter :=
  {| tracerFlushes := NewHistogram "beyla_ebpf_tracer_flushes" pipelineBufferLengths;
     otelMetricExports := 0%float;
     otelMetricExportErrs := ∅;
     otelTraceExports := 0%float;
     otelTraceExportErrs := ∅;
     prometheusRequests := ∅;
     instrumentedProcesses := ∅;
     beylaInfo := 0%float;
     informerAddDuration := ∅;
     informerUpdateDuration := ∅ |}.

Definition with_tracerFlushes (p : PrometheusReporter) (h : Histogram) : PrometheusReporter :=
  {| tracerFlushes := h;
     otelMetricExports := otelMetricExports p;
     otelMetricExportErrs := otelMetricExportErrs p;
     otelTraceExports := otelTraceExports p;
     otelTraceExportErrs := otelTraceExportErrs p;
     prometheusRequests := prometheusRequests p;
     instrumentedProcesses := instrumentedProcesses p;
     beylaInfo := beylaInfo p;
     informerAddDuration := informerAddDuration p;
     informerUpdateDuration := informerUpdateDuration p |}.

Definition TracerFlush (p : PrometheusReporter) (len : Z) : PrometheusReporter :=
  with_tracerFlushes p (Observe (tracerFlushes p) (float64 len)).

Definition OTELMetricExport (p : PrometheusReporter) (len : Z) : PrometheusReporter :=
  {| tracerFlushes := tracerFlushes p;
     otelMetricExports := (otelMetricExports p + float64 len)%float;
     otelMetricExportErrs := otelMetricExportErrs p;
     otelTraceExports := otelTraceExports p;
     otelTraceExportErrs := otelTraceExportErrs p;
     prometheusRequests := prometheusRequests p;
     instrumentedProcesses := instrumentedProcesses p;
     beylaInfo := beylaInfo p;
     informerAddDuration := informerAddDuration p;
     informerUpdateDuration := informerUpdateDuration p |}.

Definition OTELTraceExport (p : PrometheusReporter) (len : Z) : PrometheusReporter :=
  {| tracerFlushes := tracerFlushes p;
     otelMetricExports := otelMetricExports p;
     otelMetricExportErrs := otelMetricExportErrs p;
     otelTraceExports := (otelTraceExports p + float64 len)%float;
     otelTraceExportErrs := otelTraceExportErrs p;
     prometheusRequests := prometheusRequests p;
     instrumentedProcesses := instrumentedProcesses p;
     beylaInfo := beylaInfo p;
     informerAddDuration := informerAddDuration p;
     informerUpdateDuration := informerUpdateDuration p |}.

(** A histogram of a vector is created, with [DefBuckets], at the first use
    of its label. *)
Definition InformerAddDuration (p : PrometheusReporter) (kind : string) (seconds : float)
  : PrometheusReporter :=
  let h := default (NewHistogram "beyla_k8s_informer_add_duration_seconds" DefBuckets)
                   (informerAddDuration p !! kind) in
  {| tracerFlushes := tracerFlushes p;
     otelMetricExports := otelMetricExports p;
     otelMetricExportErrs := otelMetricExportErrs p;
     otelTraceExports := otelTraceExports p;
     otelTraceExportErrs := otelTraceExportErrs p;
     prometheusRequests := prometheusRequests p;
     instrumentedProcesses := instrumentedProcesses p;
     beylaInfo := beylaInfo p;
     informerAddDuration := <[kind := Observe h seconds]> (informerAddDuration p);
     informerUpdateDuration := informerUpdateDuration p |}.

(** [WithLabelValues(k).Add(d)] on a counter or gauge vector: the child of a
    label is created at zero at its first use. *)
Definition add_label `{Countable K} (m : gmap K float) (k : K) (d : float) : gmap K float :=
  <[k := (default 0%float (m !! k) + d)%float]> m.

Definition Start (p : PrometheusReporter) : PrometheusReporter :=
  {| tracerFlushes := tracerFlushes p;
     otelMetricExports := otelMetricExports p;
     otelMetricExportErrs := otelMetricExportErrs p;
     otelTraceExports := otelTraceExports p;
     otelTraceExportErrs := otelTraceExportErrs p;
     prometheusRequests := prometheusRequests p;
     instrumentedProcesses := instrumentedProcesses p;
     beylaInfo := 1%float;
     informerAddDuration := informerAddDuration p;
     informerUpdateDuration := informerUpdateDuration p |}.

Definition OTELMetricExportError (p : PrometheusReporter) (err : string) : PrometheusReporter :=
  {| tracerFlushes := tracerFlushes p;
     otelMetricExports := otelMetricExports p;
     otelMetricExportErrs := add_label (otelMetricExportErrs p) err 1%float;
     otelTraceExports := otelTraceExports p;
     otelTraceExportErrs := otelTraceExportErrs p;
     prometheusRequests := prometheusRequests p;
     instrumentedProcesses := instrumentedProcesses p;
     beylaInfo := beylaInfo p;
     informerAddDuration := informerAddDuration p;
     informerUpdateDuration := informerUpdateDuration p |}.

Definition OTELTraceExportError (p : PrometheusReporter) (err : string) : PrometheusReporter :=
  {| tracerFlushes := tracerFlushes p;
     otelMetricExports := otelMetricExports p;
     otelMetricExportErrs := otelMetricExportErrs p;
     otelTraceExports := otelTraceExports p;
     otelTraceExportErrs := add_label (otelTraceExportErrs p) err 1%float;
     prometheusRequests := prometheusRequests p;
     instrumentedProcesses := instrumentedProcesses p;
     beylaInfo := beylaInfo p;
     informerAddDuration := informerAddDuration p;
     informerUpdateDuration := informerUpdateDuration p |}.

Definition PrometheusRequest (p : PrometheusReporter) (port path : string) : PrometheusReporter :=
  {| tracerFlushes := tracerFlushes p;
     otelMetricExports := otelMetricExports p;
     otelMetricExportErrs := otelMetricExportErrs p;
     otelTraceExports := otelTraceExports p;
     otelTraceExportErrs := otelTraceExportErrs p;
     prometheusRequests := add_label (prometheusRequests p) (port, path) 1%float;
     instrumentedProcesses := instrumentedProcesses p;
     beylaInfo := beylaInfo p;
     informerAddDuration := informerAddDuration p;
     informerUpdateDuration := informerUpdateDuration p |}.

Definition with_instrumentedProcesses (p : PrometheusReporter) (m : gmap string float)
  : PrometheusReporter :=
  {| tracerFlushes := tracerFlushes p;
     otelMetricExports := otelMetricExports p;
     otelMetricExportErrs := otelMetricExportErrs p;
     otelTraceExports := otelTraceExports p;
     otelTraceExportErrs := otelTraceExportErrs p;
     prometheusRequests := prometheusRequests p;
     instrumentedProcesses := m;
     beylaInfo := beylaInfo p;
     informerAddDuration := informerAddDuration p;
     informerUpdateDuration := informerUpdateDuration p |}.

Definition InstrumentProcess (p : PrometheusReporter) (processName : string)
  : PrometheusReporter :=
  with_instrumentedProcesses p (add_label (instrumentedProcesses p) processName 1%float).

Definition UninstrumentProcess (p : PrometheusReporter) (processName : string)
  : PrometheusReporter :=
  with_instrumentedProcesses p (add_label (instrumentedProcesses p) processName (-1)%float).

Definition InformerUpdateDuration (p : PrometheusReporter) (kind : string) (seconds : float)
  : PrometheusReporter :=
  let h := default (NewHistogram "beyla_k8s_informer_update_duration_seconds" DefBuckets)
                   (informerUpdateDuration p !! kind) in
  {| tracerFlushes := tracerFlushes p;
     otelMetricExports := otelMetricExports p;
     otelMetricExportErrs := otelMetricExportErrs p;
     otelTraceExports := otelTraceExports p;
     otelTraceExportErrs := otelTraceExportErrs p;
     prometheusRequests := prometheusRequests p;
     instrumentedProcesses := instrumentedProcesses p;
     beylaInfo := beylaInfo p;
     informerAddDuration := informerAddDuration p;
     informerUpdateDuration := <[kind := Observe h seconds]> (informerUpdateDuration p) |}.

(** Every method of the reporter, and a run of them in order. *)
Inductive Report :=
| RStart
| RTracerFlush (len : Z)
| ROTELMetricExport (len : Z)
| ROTELMetricExportError (err : string)
| ROTELTraceExport (len : Z)
| ROTELTraceExportError (err : string)
| RPrometheusRequest (port path : string)
| RInstrumentProcess (processName : string)
| RUninstrumentProcess (processName : string)
| RInformerAddDuration (kind : string) (seconds : float)
| RInformerUpdateDuration (kind : string) (seconds : float).

Definition report (p : PrometheusReporter) (r : Report) : PrometheusReporter :=
  match r with
  | RStart => Start p
  | RTracerFlush n => TracerFlush p n
  | ROTELMetricExport n => OTELMetricExport p n
  | ROTELMetricExportError e => OTELMetricExportError p e
  | ROTELTraceExport n => OTELTraceExport p n
  | ROTELTraceExportError e => OTELTraceExportError p e
  | RPrometheusRequest port path => PrometheusRequest p port path
  | RInstrumentProcess n => InstrumentProcess p n
  | RUninstrumentProcess n => UninstrumentProcess p n
  | RInformerAddDuration k d => InformerAddDuration p k d
  | RInformerUpdateDuration k d => InformerUpdateDuration p k d
  end.

Definition reports (p : PrometheusReporter) (rs : list Report) : PrometheusReporter :=
  foldl report p rs.

(** The batch lengths flushed in a run, and the durations of the add events
    of one kind, as the histograms take them. *)
Definition flushed (rs : list Report) : list float :=
  omap (fun r => match r with RTracerFlush n => Some (float64 n) | _ => None end) rs.

Definition add_durations (kind : string) (rs : list Report) : list float :=
  omap (fun r => match r with
                 | RInformerAddDuration k d => if decide (k = kind) then Some d else None
                 | _ => None
                 end) rs.

(** Whether [Start] is among the calls of a run. *)
Definition started (rs : list Report) : bool :=
  existsb (fun r => match r with RStart => true | _ => false end) rs.

(** The error texts reported for metric exports. *)
Definition metric_export_errors (rs : list Report) : list string :=
  omap (fun r => match r with ROTELMetricExportError e => Some e | _ => None end) rs.

End imetrics.

(** ** Package ebpf/common: what the tracers and the orchestrator share *)
Module common.

Definition error := string.

Inductive result (A : Type) :=
| Ok (a : A)
| Err (e : error).
Arguments Ok {A} a.
Arguments Err {A} e.

Definition failure {A} (r : result A) : option error :=
  match r with Ok _ => None | Err e => Some e end.

(** Go's [strings.Contains]. *)
Fixpoint Contains (s substr : string) : bool :=
  String.prefix substr s
  || match s with
     | EmptyString => false
     | String _ s' => Contains s' substr
     end.

(** A value of Go's [any] as the constants tables hold them. *)
Inductive any :=
| Nil
| Uint32 (n : Z)
| Uint64 (n : Z).

#[global] Instance any_eq_dec : EqDecision any.
Proof. solve_decision. Defined.

(** [m[k]] on a [map[string]any]: the nil interface when the key is absent. *)
Definition index (m : gmap string any) (k : string) : any := default Nil (m !! k).

Inductive Level := LevelDebug | LevelInfo | LevelWarn.

Inductive ProbeKind := KProbe | Tracepoint | SockFilter | GoProbe | UProbe.

(** What the program does to its collaborators, in the order it does it.  A
    call that returns something records what it returned.  Tracers are named
    by an identifier, release handles and inodes by a number. *)
Inductive Event :=
| Log (lvl : Level) (msg : string)
| PrintVerifierErrorInfo (err : error)
| CallLoad (p : N) (res : option error)
| CallRewriteConstants (p : N) (res : option error)
| CallLoadAndAssign (p : N) (res : option error)
| CallSetupTailCalls (p : N)
| CallSetupTC (p : N)
| CallAttach (kind : ProbeKind) (p : N) (handles : list N) (libs : list N) (res : option error)
| CallRegisterOffsets (p : N) (ino : N)
| CallClose (c : N) (res : option error)
| CallUnlinkInstrumentedLib (p : N) (ino : N)
| CallFlushKernelSpec
| GoRun (p : N).

#[global] Instance Level_eq_dec : EqDecision Level.
Proof. solve_decision. Defined.
#[global] Instance ProbeKind_eq_dec : EqDecision ProbeKind.
Proof. solve_decision. Defined.
#[global] Instance Event_eq_dec : EqDecision Event.
Proof. solve_decision. Defined.

(** The process-wide state: the package variable [IntegrityModeOverride] and
    the history of the process so far, oldest event first. *)
Record World := {
  IntegrityModeOverride : bool;
  trace : list Event;
}.

(** A run of a piece of the program from a world: its value, the flag
    afterward and the events it added. *)
Record Run (A : Type) := {
  val : A;
  override : bool;
  new : list Event;
}.
Arguments val {A} r.
Arguments override {A} r.
Arguments new {A} r.

Definition after {A} (w : World) (r : Run A) : World :=
  {| IntegrityModeOverride := override r; trace := trace w ++ new r |}.

Definition M (A : Type) : Type := World -> Run A.

#[global] Instance M_ret : MRet M := fun A a w =>
  {| val := a; override := IntegrityModeOverride w; new := [] |}.

#[global] Instance M_bind : MBind M := fun A B f m w =>
  let r := m w in
  let r' := f (val r) (after w r) in
  {| val := val r'; override := override r'; new := new r ++ new r' |}.

Definition get : M World := fun w =>
  {| val := w; override := IntegrityModeOverride w; new := [] |}.

Definition emit (es : list Event) : M unit := fun w =>
  {| val := tt; override := IntegrityModeOverride w; new := es |}.

Definition setIntegrityModeOverride (b : bool) : M unit := fun w =>
  {| val := tt; override := b; new := [] |}.

(** A method of a tracer reads the world and may log, nothing else. *)
Definition R (A : Type) : Type := World -> list (Level * string) * A.

(** Go's run-time panics, as far as the code can raise them: the
    dereference of a nil pointer. *)
Inductive Panic := NilPointerDereference.

(** How a call ends: it returns, or a panic unwinds it.  Nothing under src
    recovers, so a panic ends the process and there is no state after it. *)
Inductive Outcome (A : Type) :=
| Returns (a : A)
| Panics (p : Panic).
Arguments Returns {A} a.
Arguments Panics {A} p.

(** A [*slog.Logger] that is not nil, by the attributes given to [With]. *)
Inductive Attr := AttrString (s : string) | AttrInt (n : Z).
Definition Logger := list (string * Attr).

(** A method of a [*slog.Logger] ([Debug], [Info], [Warn]): it goes through
    the handler of the logger, so on the nil pointer it panics whatever the
    level; otherwise the line is logged. *)
Definition log_line (l : option Logger) (lvl : Level) (msg : string) : M (option Panic) :=
  match l with
  | Some _ => emit [Log lvl msg];; mret None
  | None => mret (Some NilPointerDereference)
  end.

Definition liftR {A} (m : R A) : M A := fun w =>
  {| val := (m w).2; override := IntegrityModeOverride w;
     new := map (fun l => Log l.1 l.2) (m w).1 |}.

(** The handles a run released and the teardown signals it sent, in order. *)
Definition closed (es : list Event) : list N :=
  omap (fun e => match e with CallClose c _ => Some c | _ => None end) es.

Definition unlinked (es : list Event) : list (N * N) :=
  omap (fun e => match e with CallUnlinkInstrumentedLib p ino => Some (p, ino) | _ => None end) es.

Definition loads (p : N) (es : list Event) : list (option error) :=
  omap (fun e => match e with
                 | CallLoad q r => if decide (q = p) then Some r else None
                 | _ => None
                 end) es.

Definition loadAndAssigns (p : N) (es : list Event) : list (option error) :=
  omap (fun e => match e with
                 | CallLoadAndAssign q r => if decide (q = p) then Some r else None
                 | _ => None
                 end) es.

(** More readings of a run: the handles and module inodes its attachments
    appended, the attachments that were refused, and the steps it took on
    each program in order. *)
Definition attached_handles (es : list Event) : list N :=
  mjoin (omap (fun e => match e with CallAttach _ _ hs _ _ => Some hs | _ => None end) es).

Definition attached_libs (es : list Event) : list N :=
  mjoin (omap (fun e => match e with CallAttach _ _ _ ls _ => Some ls | _ => None end) es).

Definition refusals (es : list Event) : list error :=
  omap (fun e => match e with CallAttach _ _ _ _ (Some err) => Some err | _ => None end) es.

Inductive Stage :=
| StageLoaded
| StageTailCalls
| StageTC
| StageOffsets
| StageAttach (kind : ProbeKind).

Definition stages (es : list Event) : list (Stage * N) :=
  omap (fun e => match e with
                 | CallLoadAndAssign p None => Some (StageLoaded, p)
                 | CallSetupTailCalls p => Some (StageTailCalls, p)
                 | CallSetupTC p => Some (StageTC, p)
                 | CallRegisterOffsets p _ => Some (StageOffsets, p)
                 | CallAttach kind p _ _ _ => Some (StageAttach kind, p)
                 | _ => None
                 end) es.

Definition rewrites (es : list Event) : list N :=
  omap (fun e => match e with CallRewriteConstants p _ => Some p | _ => None end) es.

End common.

(** ** Package goexec: the offsets the Offset Provider hands over *)
Module goexec.
Import common.

(** [goexec.Offsets], its named field offsets. *)
Record Offsets := {
  Field : gmap string any;
}.

End goexec.

(** ** Package gotracer (src/pkg/internal/ebpf/gotracer/gotracer.go) *)
Module gotracer.
Import common goexec.

(** The four compiled artifacts, by the name of their generated loader. *)
Inductive Loader := loadBpf | loadBpf_debug | loadBpf_tp | loadBpf_tp_debug.

(** The go:generate lines build [bpf] and [bpf_debug] with
    -DNO_HEADER_PROPAGATION, and [bpf_tp] and [bpf_tp_debug] without. *)
Definition NO_HEADER_PROPAGATION (l : Loader) : bool :=
  match l with
  | loadBpf | loadBpf_debug => true
  | loadBpf_tp | loadBpf_tp_debug => false
  end.

(** The programs of the generated [bpfObjects], by field name. *)
Inductive Program :=
| UprobeProcNewproc1 | UprobeProcNewproc1Ret | UprobeProcGoexit1
| UprobeServeHTTP | UprobeServeHTTPReturns
| UprobeReadRequestStart | UprobeReadRequestReturns
| UprobeRoundTrip | UprobeRoundTripReturn | UprobeHttp2RoundTrip
| UprobeHttp2ResponseWriterStateWriteHeader
| UprobeHttp2serverConnRunHandler
| UprobeConnServe | UprobeConnServeRet
| UprobeNetFdRead | UprobePersistConnRoundTrip
| UprobeQueryDC | UprobeQueryReturn | UprobeExecDC
| UprobeServerHandleStream | UprobeServerHandleStreamReturn
| UprobeTransportWriteStatus
| UprobeClientConnInvoke | UprobeClientConnInvokeReturn
| UprobeClientConnNewStream | UprobeClientConnClose
| UprobeClientStreamRecvMsgReturn
| UprobeTransportHttp2ClientNewStream
| UprobeHttp2ServerOperateHeaders
| UprobeServerHandlerTransportHandleStreams
| UprobeWriteSubset
| UprobeHttp2FramerWriteHeaders | UprobeHttp2FramerWriteHeadersReturns.

(** [ebpfcommon.FunctionPrograms]; an unset program is [None]. *)
Record FunctionPrograms := {
  Start : option Program;
  End_ : option Program;
}.

Definition start_end (s e : Program) : FunctionPrograms := {| Start := Some s; End_ := Some e |}.
Definition start_only (s : Program) : FunctionPrograms := {| Start := Some s; End_ := None |}.
Definition end_only (e : Program) : FunctionPrograms := {| Start := None; End_ := Some e |}.

(** [ebpfcommon.TracerConfig], the fields the tracer reads. *)
Record TracerConfig := {
  BpfDebug : bool;
  WakeupLen : Z;
}.

(** The tracer, by the configuration it reads.  [New] is the constructor of
    the package and assigns [log], so the logger of a tracer is not nil. *)
Record Tracer := {
  cfg : TracerConfig;
}.

Section WithKernel.

(** [ebpfcommon.SupportsContextPropagation], which is handed the logger of
    the tracer: what the kernel allows in the world it is called in (no
    lockdown, CAP_SYS_ADMIN held) and the lines it logs on the way; the size
    of [HTTPRequestTrace]; and the generated loaders with the type of what
    they return. *)
Variable SupportsContextPropagation : R bool.
Variable sizeof_HTTPRequestTrace : Z.
Context {CollectionSpec : Type}.
Variable loader : Loader -> result CollectionSpec.

(** [&&] does not evaluate its right operand once the left is false: with
    the flag set the kernel is not asked and nothing is logged. *)
Definition supportsContextPropagation (p : Tracer) : R bool := fun w =>
  if negb (IntegrityModeOverride w) then SupportsContextPropagation w else ([], false).

Definition lockdown_line : Level * string :=
  (LevelInfo, "Kernel in lockdown mode or missing CAP_SYS_ADMIN," +:+
              " trace info propagation in HTTP headers is disabled.").

Definition Load (p : Tracer) : R (result CollectionSpec) := fun w =>
  let l := loadBpf in
  let l := if BpfDebug (cfg p) then loadBpf_debug else l in
  let '(logs, supported) := supportsContextPropagation p w in
  if supported then
    let l := loadBpf_tp in
    let l := if BpfDebug (cfg p) then loadBpf_tp_debug else l in
    (logs, loader l)
  else
    (logs ++ [lockdown_line], loader l).

Definition required_keys : list string :=
  [ "url_ptr_pos"; "path_ptr_pos"; "method_ptr_pos"; "status_code_ptr_pos";
    "content_length_ptr_pos"; "req_header_ptr_pos"; "io_writer_buf_ptr_pos";
    "io_writer_n_pos"; "tcp_addr_port_ptr_pos"; "tcp_addr_ip_ptr_pos";
    "pc_conn_pos"; "pc_tls_pos"; "c_rwc_pos"; "c_tls_pos"; "net_conn_pos";
    "conn_fd_pos"; "fd_laddr_pos"; "fd_raddr_pos" ].

Definition optional_keys : list string :=
  [ "cc_next_stream_id_pos"; "framer_w_pos"; "cc_tconn_pos"; "sc_conn_pos";
    "grpc_stream_st_ptr_pos"; "grpc_stream_method_ptr_pos"; "grpc_status_s_pos";
    "grpc_status_code_ptr_pos"; "grpc_st_conn_pos"; "grpc_stream_ctx_ptr_pos";
    "grpc_t_conn_pos"; "grpc_t_scheme_pos"; "value_context_val_ptr_pos";
    "http2_client_next_id_pos"; "grpc_transport_buf_writer_buf_pos";
    "grpc_transport_buf_writer_offset_pos" ].

(** The body of the first loop of [Constants]. *)
Definition set_required (offsets : Offsets) (constants : gmap string any) (s : string)
  : gmap string any :=
  <[s := index (Field offsets) s]> constants.

(** The body of the second loop of [Constants]. *)
Definition set_optional (offsets : Offsets) (constants : gmap string any) (s : string)
  : gmap string any :=
  let constants := <[s := index (Field offsets) s]> constants in
  if decide (index constants s = Nil)
  then <[s := Uint64 0xffffffffffffffff]> constants
  else constants.

Definition Constants (p : Tracer) (offsets : Offsets) : gmap string any :=
  let constants : gmap string any :=
    {[ "wakeup_data_bytes" :=
         Uint32 (uint32 (uint32 (WakeupLen (cfg p)) * uint32 sizeof_HTTPRequestTrace)) ]} in
  let constants := foldl (set_required offsets) constants required_keys in
  foldl (set_optional offsets) constants optional_keys.

Definition GoProbes (p : Tracer) : R (gmap string FunctionPrograms) := fun w =>
  let m : gmap string FunctionPrograms := list_to_map [
    ("runtime.newproc1", start_end UprobeProcNewproc1 UprobeProcNewproc1Ret);
    ("runtime.goexit1", start_only UprobeProcGoexit1);
    ("net/http.serverHandler.ServeHTTP", start_end UprobeServeHTTP UprobeServeHTTPReturns);
    ("net/http.(*conn).readRequest", start_end UprobeReadRequestStart UprobeReadRequestReturns);
    ("net/http.(*Transport).roundTrip", start_end UprobeRoundTrip UprobeRoundTripReturn);
    ("golang.org/x/net/http2.(*ClientConn).roundTrip",
       start_end UprobeHttp2RoundTrip UprobeRoundTripReturn);
    ("golang.org/x/net/http2.(*ClientConn).RoundTrip",
       start_end UprobeHttp2RoundTrip UprobeRoundTripReturn);
    ("net/http.(*http2ClientConn).RoundTrip",
       start_end UprobeHttp2RoundTrip UprobeRoundTripReturn);
    ("golang.org/x/net/http2.(*responseWriterState).writeHeader",
       start_only UprobeHttp2ResponseWriterStateWriteHeader);
    ("net/http.(*http2responseWriterState).writeHeader",
       start_only UprobeHttp2ResponseWriterStateWriteHeader);
    ("net/http.(*response).WriteHeader",
       start_only UprobeHttp2ResponseWriterStateWriteHeader);
    ("golang.org/x/net/http2.(*serverConn).runHandler",
       start_only UprobeHttp2serverConnRunHandler);
    ("net/http.(*http2serverConn).runHandler",
       start_only UprobeHttp2serverConnRunHandler);
    ("net/http.(*conn).serve", start_end UprobeConnServe UprobeConnServeRet);
    ("net.(*netFD).Read", start_only UprobeNetFdRead);
    ("net/http.(*persistConn).roundTrip", start_only UprobePersistConnRoundTrip);
    ("database/sql.(*DB).queryDC", start_end UprobeQueryDC UprobeQueryReturn);
    ("database/sql.(*DB).execDC", start_end UprobeExecDC UprobeQueryReturn);
    ("google.golang.org/grpc.(*Server).handleStream",
       start_end UprobeServerHandleStream UprobeServerHandleStreamReturn);
    ("google.golang.org/grpc/internal/transport.(*http2Server).WriteStatus",
       start_only UprobeTransportWriteStatus);
    ("google.golang.org/grpc.(*ClientConn).Invoke",
       start_end UprobeClientConnInvoke UprobeClientConnInvokeReturn);
    ("google.golang.org/grpc.(*ClientConn).NewStream",
       start_end UprobeClientConnNewStream UprobeServerHandleStreamReturn);
    ("google.golang.org/grpc.(*ClientConn).Close", start_only UprobeClientConnClose);
    ("google.golang.org/grpc.(*clientStream).RecvMsg",
       end_only UprobeClientStreamRecvMsgReturn);
    ("google.golang.org/grpc.(*clientStream).CloseSend",
       end_only UprobeClientConnInvokeReturn);
    ("google.golang.org/grpc/internal/transport.(*http2Client).NewStream",
       start_only UprobeTransportHttp2ClientNewStream);
    ("google.golang.org/grpc/internal/transport.(*http2Server).operateHeaders",
       start_only UprobeHttp2ServerOperateHeaders);
    ("google.golang.org/grpc/internal/transport.(*serverHandlerTransport).HandleStreams",
       start_only UprobeServerHandlerTransportHandleStreams)
  ] in
  let '(logs, supported) := supportsContextPropagation p w in
  if supported then
    let m := <["net/http.Header.writeSubset" := start_only UprobeWriteSubset]> m in
    let m := <["golang.org/x/net/http2.(*Framer).WriteHeaders" :=
                 start_end UprobeHttp2FramerWriteHeaders UprobeHttp2FramerWriteHeadersReturns]> m in
    let m := <["net/http.(*http2Framer).WriteHeaders" :=
                 start_end UprobeHttp2FramerWriteHeaders UprobeHttp2FramerWriteHeadersReturns]> m in
    (logs, m)
  else (logs, m).

End WithKernel.

(** The keys under which [GoProbes] registers context-propagation programs. *)
Definition context_propagation_symbols : list string :=
  [ "net/http.Header.writeSubset";
    "golang.org/x/net/http2.(*Framer).WriteHeaders";
    "net/http.(*http2Framer).WriteHeaders" ].

(** The go:generate lines build [bpf_debug] and [bpf_tp_debug] with
    -DBPF_DEBUG. *)
Definition BPF_DEBUG (l : Loader) : bool :=
  match l with
  | loadBpf_debug | loadBpf_tp_debug => true
  | loadBpf | loadBpf_tp => false
  end.

(** Go's [byte(v)] of an [int8]. *)
Definition byte (v : Z) : Z := v mod 256.

(** Go's [string(bytes)], the bytes as characters. *)
Definition string_of_bytes (bytes : list Z) : string :=
  String.string_of_list_ascii (map (fun b => Ascii.ascii_of_N (Z.to_N b)) bytes).

(** The loop of [readString] from index [i] on, over the rest of [data]. *)
Fixpoint readString_loop (i : nat) (data : list Z) (bytes : list Z) : list Z :=
  match data with
  | [] => bytes
  | v :: data =>
      if decide (v = 0) then take i bytes
      else readString_loop (S i) data (<[i := byte v]> bytes)
  end.

Definition readString (data : list Z) : string :=
  let bytes := replicate (length data) 0 in
  string_of_bytes (readString_loop 0 data bytes).

(** The values of [data] before its first zero. *)
Fixpoint before_nul (data : list Z) : list Z :=
  match data with
  | [] => []
  | v :: data => if decide (v = 0) then [] else v :: before_nul data
  end.

(** A character as the [int8] a C char array shows it as in Go, and a string
    as the start of such an array. *)
Definition int8_of_ascii (a : Ascii.ascii) : Z :=
  let n := Z.of_N (Ascii.N_of_ascii a) in
  if decide (n < 128) then n else n - 256.

Definition chars (s : string) : list Z := map int8_of_ascii (String.list_ascii_of_string s).

End gotracer.

(** ** Package ebpf, the process tracer (src/unnamed/part_001) *)
Module ebpf.
Import common goexec.

(** [exec.FileInfo], the fields the orchestrator reads. *)
Record FileInfo := {
  Ino : N;
  Pid : N;
  CmdExePath : string;
}.

Record Instrumentable := {
  ie_FileInfo : FileInfo;
  ie_Offsets : Offsets;
}.

(** [link.Executable] is opaque here: the path it was opened from. *)
Definition Executable := string.

Record instrumenter := {
  offsets : option Offsets;
  exe : option Executable;
  closables : list N;
  modules : gset N;
}.

(** Modelled from the spec: the attachment methods of the instrumenter
    ([kprobes], [tracepoints], [sockfilters], [goprobes], [uprobes]) are not
    under src.  Per section 4.2 every successful attachment appends its
    release handle to [closables], [uprobes] adds the inode of each module it
    instruments to [modules], and a refused attachment is an error that
    leaves the handles appended before it in place.  One call is summed up by
    what it appended and whether it was refused. *)
Record Attached := {
  handles : list N;
  libs : list N;
  refused : option error;
}.

Definition attached (i : instrumenter) (a : Attached) : instrumenter :=
  {| offsets := offsets i; exe := exe i;
     closables := closables i ++ handles a;
     modules := modules i ∪ list_to_set (libs a) |}.

Section WithSpec.
Context {CollectionSpec : Type}.

(** The [Tracer] interface, as far as the orchestrator looks into what its
    methods return; the other methods show as events only. *)
Record Tracer := {
  tid : N;
  Load : R (result CollectionSpec);
  Constants : gmap string any;
}.

(** [log] is a [*slog.Logger]: nil ([None]) until [Run] assigns it.
    [loadMux] is left out: the operations are modelled one after the
    other. *)
Record ProcessTracer := {
  log : option Logger;
  Programs : list Tracer;
  PinPath : string;
  SystemWide : bool;
  Type_ : Z;
  Instrumentables : gmap N instrumenter;
}.

Definition with_Instrumentables (pt : ProcessTracer) (m : gmap N instrumenter) : ProcessTracer :=
  {| log := log pt; Programs := Programs pt; PinPath := PinPath pt;
     SystemWide := SystemWide pt; Type_ := Type_ pt; Instrumentables := m |}.

Definition with_log (pt : ProcessTracer) (l : option Logger) : ProcessTracer :=
  {| log := l; Programs := Programs pt; PinPath := PinPath pt;
     SystemWide := SystemWide pt; Type_ := Type_ pt;
     Instrumentables := Instrumentables pt |}.

(** The collaborators outside the repository, each answering from the world
    it is called in: cilium/ebpf's [RewriteConstants] and [LoadAndAssign]
    (the kernel verifier), the attachment methods (see [Attached]), [Close]
    on a release handle, and the order in which Go ranges over a map, which
    is some order of its keys. *)
Record Env := {
  env_RewriteConstants : CollectionSpec -> gmap string any -> result CollectionSpec;
  env_LoadAndAssign : World -> N -> CollectionSpec -> option error;
  env_attach : World -> ProbeKind -> option N -> instrumenter -> N -> Attached;
  env_Close : World -> N -> option error;
  env_range : World -> gset N -> list N;
  env_range_perm : forall w s, env_range w s ≡ₚ elements s;
}.

Variable E : Env.

(** The literal of [NewProcessTracer] names every field but [log], which is
    therefore nil. *)
Definition NewProcessTracer (pinPath : string) (systemWide : bool) (tracerType : Z)
    (programs : list Tracer) : ProcessTracer :=
  {| log := None; Programs := programs; PinPath := pinPath; SystemWide := systemWide;
     Type_ := tracerType; Instrumentables := ∅ |}.

Definition ptlog : Logger := [("component", AttrString "ebpf.ProcessTracer")].

(** [Run] assigns the logger, logs through it (it is not nil there) and
    starts one goroutine per program; what a goroutine does is outside the
    model, and the last one only waits for the context. *)
Definition Run (pt : ProcessTracer) : M ProcessTracer :=
  let pt := with_log pt (Some (ptlog ++ [("type", AttrInt (Type_ pt))])) in
  log_line (log pt) LevelDebug "starting process tracer";;
  emit (map (fun t => GoRun (tid t)) (Programs pt));;
  mret pt.

Definition printVerifierErrorInfo (err : error) : M unit :=
  emit [PrintVerifierErrorInfo err].

Definition loadSpec (p : Tracer) : M (result CollectionSpec) :=
  r ← liftR (Load p);
  emit [CallLoad (tid p) (failure r)];;
  match r with
  | Err err => mret (Err ("loading eBPF program: " +:+ err))
  | Ok spec =>
      let r' := env_RewriteConstants E spec (Constants p) in
      emit [CallRewriteConstants (tid p) (failure r')];;
      match r' with
      | Err err => mret (Err ("rewriting BPF constants definition: " +:+ err))
      | Ok spec' => mret (Ok spec')
      end
  end.

Definition LoadAndAssign (p : Tracer) (spec : CollectionSpec) : M (option error) :=
  w ← get;
  let err := env_LoadAndAssign E w (tid p) spec in
  emit [CallLoadAndAssign (tid p) err];;
  mret err.

Definition attach (kind : ProbeKind) (pid : option N) (i : instrumenter) (p : Tracer)
  : M (instrumenter * option error) :=
  w ← get;
  let a := env_attach E w kind pid i (tid p) in
  emit [CallAttach kind (tid p) (handles a) (libs a) (refused a)];;
  mret (attached i a, refused a).

Definition kprobes := attach KProbe None.
Definition tracepoints := attach Tracepoint None.
Definition sockfilters := attach SockFilter None.
Definition goprobes := attach GoProbe None.
Definition uprobes (pid : N) := attach UProbe (Some pid).

Definition missing_helper : string := "unknown func bpf_probe_write_user".

Definition missing_helper_warning : string :=
  "Failed to enable distributed tracing context-propagation on a Linux Kernel without write memory support. " +:+
  "To avoid seeing this message, please ensure you have correctly mounted /sys/kernel/security. " +:+
  "and ensure beyla has the SYS_ADMIN linux capability" +:+
  "For more details set BEYLA_LOG_LEVEL=DEBUG.".

(** The load of one program in [loadTracers]: [loadSpec], [LoadAndAssign] and
    the fallback, up to the error check that follows it.  The value is the
    error the loop returns, if any. *)
Definition loadTracers_load (p : Tracer) : M (option error) :=
  emit [Log LevelDebug "loading eBPF program"];;
  r ← loadSpec p;
  match r with
  | Err err => mret (Some err)
  | Ok spec =>
      err ← LoadAndAssign p spec;
      match err with
      | None => mret None
      | Some e =>
          err ← (if Contains e missing_helper then
                   emit [Log LevelWarn missing_helper_warning];;
                   setIntegrityModeOverride true;;
                   r ← loadSpec p;
                   match r with
                   | Err e' => mret (Some e')
                   | Ok spec => LoadAndAssign p spec
                   end
                 else mret (Some e));
          match err with
          | Some e =>
              printVerifierErrorInfo e;;
              mret (Some ("loading and assigning BPF objects: " +:+ e))
          | None => mret None
          end
      end
  end.

(** The rest of the loop body: tail calls, traffic control and the global
    probes, attached through the dummy instrumenter. *)
Definition loadTracers_setup (i : instrumenter) (p : Tracer) : M (instrumenter * option error) :=
  emit [CallSetupTailCalls (tid p)];;
  emit [CallSetupTC (tid p)];;
  '(i, err) ← kprobes i p;
  match err with
  | Some e => printVerifierErrorInfo e;; mret (i, Some e)
  | None =>
      '(i, err) ← tracepoints i p;
      match err with
      | Some e => printVerifierErrorInfo e;; mret (i, Some e)
      | None =>
          '(i, err) ← sockfilters i p;
          match err with
          | Some e => printVerifierErrorInfo e;; mret (i, Some e)
          | None => mret (i, None)
          end
      end
  end.

Fixpoint loadTracers_loop (i : instrumenter) (ps : list Tracer) : M (option error) :=
  match ps with
  | [] => mret None
  | p :: ps =>
      err ← loadTracers_load p;
      match err with
      | Some e => mret (Some e)
      | None =>
          '(i, err) ← loadTracers_setup i p;
          match err with
          | Some e => mret (Some e)
          | None => loadTracers_loop i ps
          end
      end
  end.

Definition loadTracers (pt : ProcessTracer) : M (option error) :=
  let i := {| offsets := None; exe := None; closables := []; modules := ∅ |} in
  err ← loadTracers_loop i (Programs pt);
  match err with
  | Some e => mret (Some e)
  | None => emit [CallFlushKernelSpec];; mret None
  end.

Definition Init (pt : ProcessTracer) : M (option error) := loadTracers pt.

Fixpoint NewExecutableInstance_loop (pid : N) (i : instrumenter) (ps : list Tracer)
  : M (instrumenter * option error) :=
  match ps with
  | [] => mret (i, None)
  | p :: ps =>
      '(i, err) ← uprobes pid i p;
      match err with
      | Some e => printVerifierErrorInfo e;; mret (i, Some e)
      | None => NewExecutableInstance_loop pid i ps
      end
  end.

(** The map holds pointers: what [uprobes] appends through [i] stays in the
    entry, also when the call ends in an error.  The other branch logs
    through [pt.log]. *)
Definition NewExecutableInstance (ie : Instrumentable) (pt : ProcessTracer)
  : M (Outcome (ProcessTracer * option error)) :=
  match Instrumentables pt !! Ino (ie_FileInfo ie) with
  | Some i =>
      '(i, err) ← NewExecutableInstance_loop (Pid (ie_FileInfo ie)) i (Programs pt);
      mret (Returns
              (with_Instrumentables pt (<[Ino (ie_FileInfo ie) := i]> (Instrumentables pt)),
               err))
  | None =>
      p ← log_line (log pt) LevelWarn "Attempted to update non-existent tracer";
      match p with
      | Some p => mret (Panics p)
      | None => mret (Returns (pt, None))
      end
  end.

Fixpoint NewExecutable_loop (ie : Instrumentable) (i : instrumenter) (ps : list Tracer)
  : M (instrumenter * option error) :=
  match ps with
  | [] => mret (i, None)
  | p :: ps =>
      emit [CallRegisterOffsets (tid p) (Ino (ie_FileInfo ie))];;
      '(i, err) ← goprobes i p;
      match err with
      | Some e => printVerifierErrorInfo e;; mret (i, Some e)
      | None =>
          '(i, err) ← uprobes (Pid (ie_FileInfo ie)) i p;
          match err with
          | Some e => printVerifierErrorInfo e;; mret (i, Some e)
          | None => NewExecutable_loop ie i ps
          end
      end
  end.

(** The instrumenter is a local of the call; it enters the map in the last
    statement, which an error return does not reach. *)
Definition NewExecutable (exe_ : Executable) (ie : Instrumentable) (pt : ProcessTracer)
  : M (ProcessTracer * option error) :=
  let i := {| offsets := Some (ie_Offsets ie); exe := Some exe_;
              closables := []; modules := ∅ |} in
  '(i, err) ← NewExecutable_loop ie i (Programs pt);
  match err with
  | Some e => mret (pt, Some e)
  | None =>
      mret (with_Instrumentables pt (<[Ino (ie_FileInfo ie) := i]> (Instrumentables pt)), None)
  end.

(** The first loop of [UnlinkExecutable]; an error of [Close] is logged
    through [pt.log], and a panic there ends the loop and the call. *)
Fixpoint UnlinkExecutable_close (l : option Logger) (cs : list N) : M (option Panic) :=
  match cs with
  | [] => mret None
  | c :: cs =>
      w ← get;
      let err := env_Close E w c in
      emit [CallClose c err];;
      p ← (if err is Some _
           then log_line l LevelDebug "Unable to close on unlink"
           else mret None);
      match p with
      | Some p => mret (Some p)
      | None => UnlinkExecutable_close l cs
      end
  end.

Definition UnlinkInstrumentedLib_all (ps : list Tracer) (ino : N) : M unit :=
  emit (map (fun p => CallUnlinkInstrumentedLib (tid p) ino) ps).

Fixpoint UnlinkExecutable_modules (ps : list Tracer) (inos : list N) : M unit :=
  match inos with
  | [] => mret tt
  | ino :: inos =>
      UnlinkInstrumentedLib_all ps ino;;
      UnlinkExecutable_modules ps inos
  end.

Definition unlink_warning : Event := Log LevelWarn "Unable to find executable to unlink".

Definition UnlinkExecutable (info : FileInfo) (pt : ProcessTracer) : M (Outcome ProcessTracer) :=
  match Instrumentables pt !! Ino info with
  | Some i =>
      p ← UnlinkExecutable_close (log pt) (closables i);
      match p with
      | Some p => mret (Panics p)
      | None =>
          w ← get;
          UnlinkExecutable_modules (Programs pt) (env_range E w (modules i));;
          mret (Returns (with_Instrumentables pt (delete (Ino info) (Instrumentables pt))))
      end
  | None =>
      p ← log_line (log pt) LevelWarn "Unable to find executable to unlink";
      match p with
      | Some p => mret (Panics p)
      | None => mret (Returns pt)
      end
  end.

(** One teardown signal per program, in the order of [ps], for each of the
    modules [inos] in turn, as pairs of tracer and module inode. *)
Definition signals (ps : list Tracer) (inos : list N) : list (N * N) :=
  inos ≫= fun ino => map (fun p => (tid p, ino)) ps.

(** What [UnlinkExecutable] may do on its way: release, log at debug level
    and signal a teardown. *)
Definition release_event (e : Event) : Prop :=
  match e with
  | CallClose _ _ | Log LevelDebug _ | CallUnlinkInstrumentedLib _ _ => True
  | _ => False
  end.

(** The teardown signals as events, and how a run over the closables [cs]
    ends when the logger is nil: every [Close] succeeded, or the run stopped
    at the first one that failed. *)
Definition signal_events (ps : list Tracer) (inos : list N) : list Event :=
  map (fun x : N * N => CallUnlinkInstrumentedLib x.1 x.2) (signals ps inos).

Definition stopped_at_failure (cs : list N) (es : list Event) : Prop :=
  exists pre c e rest,
    cs = pre ++ c :: rest
    /\ es = map (fun c => CallClose c None) pre ++ [CallClose c (Some e)].

(** The operations of the orchestrator and a sequence of them on one tracer;
    the errors they return go to the caller and the tracer stays usable, a
    panic ends the sequence. *)
Inductive Op :=
| OpRun
| OpInit
| OpNewExecutable (exe_ : Executable) (ie : Instrumentable)
| OpNewExecutableInstance (ie : Instrumentable)
| OpUnlinkExecutable (info : FileInfo).

Definition op (pt : ProcessTracer) (o : Op) : M (Outcome ProcessTracer) :=
  match o with
  | OpRun => pt ← Run pt; mret (Returns pt)
  | OpInit => Init pt;; mret (Returns pt)
  | OpNewExecutable exe_ ie => '(pt, _) ← NewExecutable exe_ ie pt; mret (Returns pt)
  | OpNewExecutableInstance ie =>
      r ← NewExecutableInstance ie pt;
      match r with
      | Returns (pt, _) => mret (Returns pt)
      | Panics p => mret (Panics p)
      end
  | OpUnlinkExecutable info => UnlinkExecutable info pt
  end.

Fixpoint ops (pt : ProcessTracer) (os : list Op) : M (Outcome ProcessTracer) :=
  match os with
  | [] => mret (Returns pt)
  | o :: os =>
      r ← op pt o;
      match r with
      | Returns pt => ops pt os
      | Panics p => mret (Panics p)
      end
  end.

(** [RunUtilityTracer]; a utility tracer has the [Load] of a tracer and no
    constants.  The value is the error and whether [go p.Run] was reached. *)
Definition RunUtilityTracer (p : Tracer) (pinPath : string) : M (option error * bool) :=
  let i := {| offsets := None; exe := None; closables := []; modules := ∅ |} in
  emit [Log LevelDebug "loading independent eBPF program"];;
  r ← liftR (Load p);
  emit [CallLoad (tid p) (failure r)];;
  match r with
  | Err err => mret (Some ("loading eBPF program: " +:+ err), false)
  | Ok spec =>
      err ← LoadAndAssign p spec;
      match err with
      | Some e =>
          printVerifierErrorInfo e;;
          mret (Some ("loading and assigning BPF objects: " +:+ e), false)
      | None =>
          '(i, err) ← kprobes i p;
          match err with
          | Some e => printVerifierErrorInfo e;; mret (Some e, false)
          | None =>
              '(i, err) ← tracepoints i p;
              match err with
              | Some e => printVerifierErrorInfo e;; mret (Some e, false)
              | None => emit [CallFlushKernelSpec];; mret (None, true)
              end
          end
      end
  end.

(** [Close] on one kernel handle. *)
Definition Close (c : N) : M (option error) :=
  w ← get;
  let err := env_Close E w c in
  emit [CallClose c err];;
  mret err.

End WithSpec.

(** What cilium/ebpf's [RewriteConstants] does with a nil replacement: it
    marshals every value of the table and a nil value cannot be marshalled,
    so the rewrite is refused. *)
Definition rejects_nil {CollectionSpec : Type} (E : @Env CollectionSpec) : Prop :=
  forall spec (constants : gmap string any) s,
    constants !! s = Some Nil -> exists e, env_RewriteConstants E spec constants = Err e.

Definition not_unlink (o : Op) : Prop :=
  match o with OpUnlinkExecutable _ => False | _ => True end.

(** The load fallback shows in a run: some kernel load failed with a
    diagnostic that names the missing helper. *)
Definition fallback_in (es : list Event) : Prop :=
  exists p e, CallLoadAndAssign p (Some e) ∈ es /\ Contains e missing_helper = true.

(** A run that leaves the flag as it was, or set with the fallback in its
    events. *)
Definition flag_kept {A} (w : World) (r : common.Run A) : Prop :=
  override r = IntegrityModeOverride w \/ (override r = true /\ fallback_in (new r)).

(** A run that leaves the flag as it was, releases no handle and signals no
    teardown. *)
Definition silent {A} (w : World) (r : common.Run A) : Prop :=
  override r = IntegrityModeOverride w /\ closed (new r) = [] /\ unlinked (new r) = [].

(** The steps [NewExecutable] takes on one program, and the ones
    [loadTracers] takes on it, in order. *)
Definition NewExecutable_steps {CollectionSpec} (p : @Tracer CollectionSpec) : list (Stage * N) :=
  [ (StageOffsets, tid p); (StageAttach GoProbe, tid p); (StageAttach UProbe, tid p) ].

Definition loadTracers_steps {CollectionSpec} (p : @Tracer CollectionSpec) : list (Stage * N) :=
  [ (StageLoaded, tid p); (StageTailCalls, tid p); (StageTC, tid p);
    (StageAttach KProbe, tid p); (StageAttach Tracepoint, tid p);
    (StageAttach SockFilter, tid p) ].

(** A run of attachments that ended with [res]: a refusal is the last call,
    followed by the print of its verifier information. *)
Definition refusal_last (res : option error) (es : list Event) : Prop :=
  match res with
  | Some e => exists es' kind p hs ls,
      es = es' ++ [CallAttach kind p hs ls (Some e); PrintVerifierErrorInfo e]
      /\ refusals es' = []
  | None => refusals es = []
  end.

(** The events of loading: everything but the registration of offsets, the
    release of a handle, the teardown signal, the flush of the BTF cache and
    the start of a goroutine. *)
Definition load_event (e : Event) : Prop :=
  match e with
  | CallRegisterOffsets _ _ | CallClose _ _ | CallUnlinkInstrumentedLib _ _
  | CallFlushKernelSpec | GoRun _ => False
  | _ => True
  end.

(** The instrumenter a loop of attachments ends with holds what it started
    with and what the attachments appended, whether or not one was refused. *)
Definition grown (i i' : instrumenter) (es : list Event) : Prop :=
  closables i' = closables i ++ attached_handles es
  /\ modules i' = modules i ∪ list_to_set (attached_libs es)
  /\ offsets i' = offsets i /\ exe i' = exe i.

Arguments Tracer : clear implicits.
Arguments ProcessTracer : clear implicits.
Arguments Env : clear implicits.

End ebpf.

(** ** Package secexec, generated by bpf2go
       (src/pkg/internal/ebpf/secexec/bpf_debug_bpfel_x86.go) *)
Module secexec.
Import common.

Section WithSpec.
Context {CollectionSpec : Type}.
Variable E : ebpf.Env CollectionSpec.

Record bpf_debugPrograms := {
  KprobeDoTaskDead : N;
  SyscallEnterExecve : N;
  SyscallEnterExecveat : N;
}.

Record bpf_debugMaps := {
  Events : N;
}.

Record bpf_debugObjects := {
  programs : bpf_debugPrograms;
  maps : bpf_debugMaps;
}.

(** An [io.Closer] is its [Close] method. *)
Fixpoint _Bpf_debugClose (closers : list (M (option error))) : M (option error) :=
  match closers with
  | [] => mret None
  | closer :: closers =>
      err ← closer;
      match err with
      | Some e => mret (Some e)
      | None => _Bpf_debugClose closers
      end
  end.

Definition bpf_debugPrograms_Close (p : bpf_debugPrograms) : M (option error) :=
  _Bpf_debugClose [ ebpf.Close E (KprobeDoTaskDead p);
                    ebpf.Close E (SyscallEnterExecve p);
                    ebpf.Close E (SyscallEnterExecveat p) ].

Definition bpf_debugMaps_Close (m : bpf_debugMaps) : M (option error) :=
  _Bpf_debugClose [ ebpf.Close E (Events m) ].

Definition bpf_debugObjects_Close (o : bpf_debugObjects) : M (option error) :=
  _Bpf_debugClose [ bpf_debugPrograms_Close (programs o); bpf_debugMaps_Close (maps o) ].

(** The handles of the objects in the order of the struct fields. *)
Definition handles_of (o : bpf_debugObjects) : list N :=
  [ KprobeDoTaskDead (programs o); SyscallEnterExecve (programs o);
    SyscallEnterExecveat (programs o); Events (maps o) ].

(** What a run of closers over the handles [cs] leaves in the trace: every
    handle closed in order when it returns no error, otherwise the handles up
    to the first one whose [Close] failed. *)
Definition closes_in_order (cs : list N) (r : Run (option error)) : Prop :=
  match val r with
  | None => new r = map (fun c => CallClose c None) cs
  | Some e => exists pre c rest,
      cs = pre ++ c :: rest
      /\ new r = map (fun c => CallClose c None) pre ++ [CallClose c (Some e)]
  end.

End WithSpec.

End secexec.

(** ** The Go tracer as a program of the process tracer *)
Section GoTracer.
Import common goexec.
Variable SupportsContextPropagation : R bool.
Variable sizeof_HTTPRequestTrace : Z.
Context {CollectionSpec : Type}.
Variable loader : gotracer.Loader -> result CollectionSpec.

(** The Go tracer behind the [Tracer] interface, its constants computed from
    the offsets of the executable. *)
Definition goTracer (id : N) (p : gotracer.Tracer) (offsets : Offsets)
  : ebpf.Tracer CollectionSpec :=
  {| ebpf.tid := id;
     ebpf.Load := gotracer.Load SupportsContextPropagation loader p;
     ebpf.Constants := gotracer.Constants sizeof_HTTPRequestTrace p offsets |}.

End GoTracer.

(** ** Sample environments and states, for evaluation *)
Module samples.
Import common goexec ebpf.

(** Every call succeeds, nothing is attached, maps are ranged over in the
    order of [elements]. *)
Definition quiet : Env unit :=
  {| env_RewriteConstants := fun spec _ => Ok spec;
     env_LoadAndAssign := fun _ _ _ => None;
     env_attach := fun _ _ _ _ _ => {| handles := []; libs := []; refused := None |};
     env_Close := fun _ _ => None;
     env_range := fun _ s => elements s;
     env_range_perm := fun _ _ => reflexivity _ |}.

Definition start : World := {| IntegrityModeOverride := false; trace := [] |}.

Definition info1 : FileInfo := {| Ino := 7; Pid := 42; CmdExePath := "/bin/app" |}.

Definition ie1 : Instrumentable :=
  {| ie_FileInfo := info1; ie_Offsets := {| Field := ∅ |} |}.

Definition tracer1 : Tracer unit :=
  {| tid := 1; Load := fun _ => ([], Ok tt); Constants := ∅ |}.

Definition tracer2 : Tracer unit :=
  {| tid := 2; Load := fun _ => ([], Ok tt); Constants := ∅ |}.

(** One executable, inode 7, with release handles 1, 2, 3 appended in that
    order and modules 100 and 200. *)
Definition instr1 : instrumenter :=
  {| offsets := None; exe := Some "/bin/app"; closables := [1; 2; 3]%N;
     modules := {[ 100%N; 200%N ]} |}.

(** A tracer with one program and no executable yet. *)
Definition pt0 : ProcessTracer unit :=
  NewProcessTracer "/sys/fs/bpf/beyla" false 0 [tracer1].

Definition pt1 : ProcessTracer unit :=
  with_Instrumentables (NewProcessTracer "/sys/fs/bpf/beyla" false 0 [tracer1; tracer2])
                       {[ 7%N := instr1 ]}.

(** As [quiet], but [Close] fails on handle 1. *)
Definition close1_fails : Env unit :=
  {| env_RewriteConstants := fun spec _ => Ok spec;
     env_LoadAndAssign := fun _ _ _ => None;
     env_attach := fun _ _ _ _ _ => {| handles := []; libs := []; refused := None |};
     env_Close := fun _ c => if decide (c = 1%N) then Some "bad file descriptor" else None;
     env_range := fun _ s => elements s;
     env_range_perm := fun _ _ => reflexivity _ |}.

(** As [quiet], but [goprobes] attaches handle 5 and [uprobes] attaches
    handle 6 before an attachment is refused. *)
Definition uprobes_refused : Env unit :=
  {| env_RewriteConstants := fun spec _ => Ok spec;
     env_LoadAndAssign := fun _ _ _ => None;
     env_attach := fun _ kind _ _ _ =>
       match kind with
       | GoProbe => {| handles := [5%N]; libs := []; refused := None |}
       | UProbe => {| handles := [6%N]; libs := [100%N]; refused := Some "attach refused" |}
       | _ => {| handles := []; libs := []; refused := None |}
       end;
     env_Close := fun _ _ => None;
     env_range := fun _ s => elements s;
     env_range_perm := fun _ _ => reflexivity _ |}.

(** As [quiet], but [RewriteConstants] refuses a table that holds a nil. *)
Definition strict : Env unit :=
  {| env_RewriteConstants := fun spec constants =>
       if decide (Nil ∈ (map_to_list constants).*2)
       then Err "marshaling constant replacement: nil value"
       else Ok spec;
     env_LoadAndAssign := fun _ _ _ => None;
     env_attach := fun _ _ _ _ _ => {| handles := []; libs := []; refused := None |};
     env_Close := fun _ _ => None;
     env_range := fun _ s => elements s;
     env_range_perm := fun _ _ => reflexivity _ |}.

(** A Go tracer without debug output. *)
Definition gocfg : gotracer.Tracer :=
  {| gotracer.cfg := {| gotracer.BpfDebug := false; gotracer.WakeupLen := 10 |} |}.

(** Offsets that give every required field and, of the optional ones, only
    [framer_w_pos]. *)
Definition offsets_all_required : Offsets :=
  {| Field := <["framer_w_pos" := Uint64 72]>
                (list_to_map (map (fun s => (s, Uint64 16)) gotracer.required_keys)) |}.

(** Generated loaders that all succeed. *)
Definition sample_loader (l : gotracer.Loader) : result unit := Ok tt.

(** The same offsets without [url_ptr_pos]. *)
Definition offsets_no_url : Offsets :=
  {| Field := delete "url_ptr_pos" (Field offsets_all_required) |}.

(** The kernel lacks the helper: [LoadAndAssign] fails with the verifier's
    message while the flag is unset, and succeeds once it is set. *)
Definition no_write_helper : Env unit :=
  {| env_RewriteConstants := fun spec _ => Ok spec;
     env_LoadAndAssign := fun w _ _ =>
       if IntegrityModeOverride w then None
       else Some "program uprobe_WriteSubset: load program: invalid argument: unknown func bpf_probe_write_user#36";
     env_attach := fun _ _ _ _ _ => {| handles := []; libs := []; refused := None |};
     env_Close := fun _ _ => None;
     env_range := fun _ s => elements s;
     env_range_perm := fun _ _ => reflexivity _ |}.

(** As [quiet], but [goprobes] attaches handle 5 and [uprobes] handle 6 in
    module 100, and nothing is refused. *)
Definition all_attached : Env unit :=
  {| env_RewriteConstants := fun spec _ => Ok spec;
     env_LoadAndAssign := fun _ _ _ => None;
     env_attach := fun _ kind _ _ _ =>
       match kind with
       | GoProbe => {| handles := [5%N]; libs := []; refused := None |}
       | UProbe => {| handles := [6%N]; libs := [100%N]; refused := None |}
       | _ => {| handles := []; libs := []; refused := None |}
       end;
     env_Close := fun _ _ => None;
     env_range := fun _ s => elements s;
     env_range_perm := fun _ _ => reflexivity _ |}.

(** As [quiet], but the kernel rejects every program. *)
Definition never_loads : Env unit :=
  {| env_RewriteConstants := fun spec _ => Ok spec;
     env_LoadAndAssign := fun _ _ _ => Some "permission denied";
     env_attach := fun _ _ _ _ _ => {| handles := []; libs := []; refused := None |};
     env_Close := fun _ _ => None;
     env_range := fun _ s => elements s;
     env_range_perm := fun _ _ => reflexivity _ |}.

(** [pt0] with a second program after the first. *)
Definition pt2 : ProcessTracer unit :=
  NewProcessTracer "/sys/fs/bpf/beyla" false 0 [tracer1; tracer2].

(** [pt0] and [pt1] once [Run] was called on them: the logger is set. *)
Definition running0 : ProcessTracer unit := val (Run pt0 start).

Definition running1 : ProcessTracer unit := val (Run pt1 start).

(** A kernel that allows context propagation and a check that logs nothing,
    and a kernel in lockdown whose check says so. *)
Definition kernel_allows : R bool := fun _ => ([], true).

Definition kernel_lockdown : R bool := fun _ =>
  ([(LevelDebug, "kernel lockdown mode: integrity")], false).

End samples.

(** * Theorems *)

Section imetrics_facts.
Import imetrics.

Example float64_small : float64 7 = 7%float /\ float64 320 = 320%float /\ float64 (-3) = (-3)%float.
Proof. vm_compute. auto. Qed.

Lemma reports_Buckets p rs :
  Buckets (tracerFlushes (reports p rs)) = Buckets (tracerFlushes p).
Proof.
  revert p. induction rs as [|r rs IH]; intros p; [reflexivity|].
  unfold reports in *. cbn [foldl]. rewrite IH. by destruct r.
Qed.

(** C9: on a reporter made by [NewPrometheusReporter] from any configuration
    and used since through any of its methods, [Start] included, in any
    order, [TracerFlush n] appends exactly one observation, [float64 n], to
    the batch-length histogram, changes nothing else, and the bucket bounds
    of that histogram are 0, 10, 20, 40, 80, 160, 320 whatever the
    configuration. *)
Theorem TracerFlush_one_observation (cfg : PrometheusConfig) (rs : list Report) (n : Z) :
  let p := reports (NewPrometheusReporter cfg) rs in
  observations (tracerFlushes (TracerFlush p n))
    = observations (tracerFlushes p) ++ [float64 n]
  /\ Buckets (tracerFlushes p) = [0; 10; 20; 40; 80; 160; 320]%float
  /\ Buckets (tracerFlushes (TracerFlush p n)) = [0; 10; 20; 40; 80; 160; 320]%float
  /\ TracerFlush p n = with_tracerFlushes p (tracerFlushes (TracerFlush p n)).
Proof.
  intros p. subst p. repeat split.
  - apply reports_Buckets.
  - cbn. apply reports_Buckets.
Qed.

End imetrics_facts.

(** ** The monad and the readings of a trace *)
Section trace_facts.
Import common.

Lemma closed_app es1 es2 : closed (es1 ++ es2) = closed es1 ++ closed es2.
Proof. apply omap_app. Qed.

Lemma unlinked_app es1 es2 : unlinked (es1 ++ es2) = unlinked es1 ++ unlinked es2.
Proof. apply omap_app. Qed.

Lemma loads_app p es1 es2 : loads p (es1 ++ es2) = loads p es1 ++ loads p es2.
Proof. apply omap_app. Qed.

Lemma loadAndAssigns_app p es1 es2 :
  loadAndAssigns p (es1 ++ es2) = loadAndAssigns p es1 ++ loadAndAssigns p es2.
Proof. apply omap_app. Qed.

Lemma new_bind {A B} (m : M A) (f : A -> M B) w :
  new ((m ≫= f) w) = new (m w) ++ new (f (val (m w)) (after w (m w))).
Proof. reflexivity. Qed.

Lemma val_bind {A B} (m : M A) (f : A -> M B) w :
  val ((m ≫= f) w) = val (f (val (m w)) (after w (m w))).
Proof. reflexivity. Qed.

Lemma override_bind {A B} (m : M A) (f : A -> M B) w :
  override ((m ≫= f) w) = override (f (val (m w)) (after w (m w))).
Proof. reflexivity. Qed.

Lemma override_after {A} w (r : Run A) : IntegrityModeOverride (after w r) = override r.
Proof. reflexivity. Qed.

Lemma after_bind {A B} (m : M A) (f : A -> M B) w :
  after w ((m ≫= f) w) = after (after w (m w)) (f (val (m w)) (after w (m w))).
Proof. unfold after, mbind, M_bind. cbn. f_equal. apply app_assoc. Qed.

End trace_facts.

(** ** The process tracer *)
Section ebpf_facts.
Import common goexec ebpf.
Context {CollectionSpec : Type} (E : Env CollectionSpec).
Implicit Types (pt : ProcessTracer CollectionSpec) (w : World).
Implicit Types (ps : list (Tracer CollectionSpec)) (i : instrumenter).

Ltac run :=
  repeat (rewrite ?new_bind, ?val_bind, ?override_bind, ?override_after, ?after_bind;
          cbn [emit get setIntegrityModeOverride mret M_ret new val override]).

Lemma stopped_at_failure_cons c cs es :
  stopped_at_failure cs es -> stopped_at_failure (c :: cs) (CallClose c None :: es).
Proof.
  intros (pre & c' & e & rest & -> & ->). by exists (c :: pre), c', e, rest.
Qed.

Lemma closed_CallClose res cs : closed (map (fun c => CallClose c res) cs) = cs.
Proof. induction cs as [|c cs IH]; [done|]. cbn [map]. unfold closed in *. cbn. by rewrite IH. Qed.

Lemma unlinked_CallClose res cs : unlinked (map (fun c => CallClose c res) cs) = [].
Proof. by induction cs. Qed.

Lemma stopped_at_failure_closed cs es :
  stopped_at_failure cs es ->
  closed es `prefix_of` cs /\ unlinked es = []
  /\ Forall release_event es /\ exists c e, CallClose c (Some e) ∈ es.
Proof.
  intros (pre & c & e & rest & -> & ->). split_and!.
  - rewrite closed_app, closed_CallClose. cbn. exists rest. by rewrite <- app_assoc.
  - by rewrite unlinked_app, unlinked_CallClose.
  - apply Forall_app. split; [|by repeat constructor]. by induction pre; constructor.
  - exists c, e. apply elem_of_app. right. by apply list_elem_of_singleton.
Qed.

(** The first loop of [UnlinkExecutable]. *)
Lemma UnlinkExecutable_close_run l cs w :
  let r := UnlinkExecutable_close E l cs w in
  override r = IntegrityModeOverride w
  /\ Forall release_event (new r)
  /\ unlinked (new r) = []
  /\ match val r with
     | None => closed (new r) = cs
               /\ (l = None -> new r = map (fun c => CallClose c None) cs)
     | Some _ => l = None /\ stopped_at_failure cs (new r)
     end.
Proof.
  revert w. induction cs as [|c cs IH]; intros w; [by cbn|].
  cbn zeta. cbn [UnlinkExecutable_close]. run.
  destruct (env_Close E w c) as [e|].
  - destruct l as [lg|]; cbn [log_line]; run.
    + match goal with |- context [UnlinkExecutable_close E _ cs ?w'] => set (w2 := w') end.
      destruct (IH w2) as (Ho & Hr & Hu & Hv).
      destruct (UnlinkExecutable_close E (Some lg) cs w2) as [[p|] o n];
        cbn [val override new] in *.
      * by destruct Hv.
      * refine (conj _ (conj _ (conj _ _))); [done | by repeat constructor | done |].
        destruct Hv as [Hcl _]. split; [by rewrite !closed_app, Hcl | done].
    + cbn. refine (conj _ (conj _ (conj _ _))); [done | by repeat constructor | done |].
      split; [done|]. by exists [], c, e, cs.
  - run.
    match goal with |- context [UnlinkExecutable_close E _ cs ?w'] => set (w2 := w') end.
    destruct (IH w2) as (Ho & Hr & Hu & Hv).
    destruct (UnlinkExecutable_close E l cs w2) as [[p|] o n]; cbn [val override new] in *.
    + refine (conj _ (conj _ (conj _ _))); [done | by repeat constructor | done |].
      destruct Hv as [Hl Hs]. split; [done|]. by apply stopped_at_failure_cons.
    + refine (conj _ (conj _ (conj _ _))); [done | by repeat constructor | done |].
      destruct Hv as [Hcl Hn]. split; [by rewrite !closed_app, Hcl|].
      intros Hl. cbn. by rewrite (Hn Hl).
Qed.

Lemma UnlinkInstrumentedLib_all_closed ps ino w :
  closed (new (UnlinkInstrumentedLib_all ps ino w)) = [].
Proof. induction ps as [|p ps IHp]; [reflexivity | exact IHp]. Qed.

Lemma UnlinkInstrumentedLib_all_unlinked ps ino w :
  unlinked (new (UnlinkInstrumentedLib_all ps ino w)) = map (fun p => (tid p, ino)) ps.
Proof. induction ps as [|p ps IHp]; [reflexivity|]. cbn in *. by rewrite IHp. Qed.

Lemma UnlinkExecutable_modules_closed ps inos w :
  closed (new (UnlinkExecutable_modules ps inos w)) = [].
Proof.
  revert w. induction inos as [|ino inos IH]; intros w; [reflexivity|].
  cbn [UnlinkExecutable_modules].
  by rewrite !new_bind, !closed_app, IH, UnlinkInstrumentedLib_all_closed.
Qed.

Lemma UnlinkExecutable_modules_unlinked ps inos w :
  unlinked (new (UnlinkExecutable_modules ps inos w)) = signals ps inos.
Proof.
  revert w. induction inos as [|ino inos IH]; intros w; [reflexivity|].
  cbn [UnlinkExecutable_modules].
  by rewrite !new_bind, !unlinked_app, IH, UnlinkInstrumentedLib_all_unlinked.
Qed.

Lemma UnlinkExecutable_modules_new ps inos w :
  new (UnlinkExecutable_modules ps inos w) = signal_events ps inos.
Proof.
  revert w. induction inos as [|ino inos IH]; intros w; [reflexivity|].
  cbn [UnlinkExecutable_modules]. rewrite new_bind, IH.
  unfold signal_events, signals. rewrite bind_cons, map_app, map_map. reflexivity.
Qed.

Lemma UnlinkExecutable_modules_override ps inos w :
  override (UnlinkExecutable_modules ps inos w) = IntegrityModeOverride w.
Proof.
  revert w. induction inos as [|ino inos IH]; intros w; [reflexivity|].
  cbn [UnlinkExecutable_modules]. by rewrite !override_bind, IH.
Qed.

Lemma UnlinkExecutable_modules_release ps inos w :
  Forall release_event (new (UnlinkExecutable_modules ps inos w)).
Proof.
  revert w. induction inos as [|ino inos IH]; intros w; [constructor|].
  cbn [UnlinkExecutable_modules]. rewrite !new_bind.
  apply Forall_app. split; [|apply IH].
  cbn. clear IH. induction ps as [|p ps IHp]; cbn; constructor; [exact I | exact IHp].
Qed.

(** [UnlinkExecutable] on an inode of the map: it returns the tracer without
    the entry after closing everything and signalling every module, or, on a
    nil logger, panics at the first [Close] that fails. *)
Lemma UnlinkExecutable_present info pt w i :
  Instrumentables pt !! Ino info = Some i ->
  let r := UnlinkExecutable E info pt w in
  override r = IntegrityModeOverride w
  /\ Forall release_event (new r)
  /\ match val r with
     | Returns pt' =>
         pt' = with_Instrumentables pt (delete (Ino info) (Instrumentables pt))
         /\ closed (new r) = closables i
         /\ exists inos, inos ≡ₚ elements (modules i)
              /\ unlinked (new r) = signals (Programs pt) inos
              /\ (log pt = None ->
                  new r = map (fun c => CallClose c None) (closables i)
                          ++ signal_events (Programs pt) inos)
     | Panics _ => log pt = None /\ stopped_at_failure (closables i) (new r)
     end.
Proof.
  intros Hi. cbn zeta. unfold UnlinkExecutable. rewrite Hi. run.
  destruct (UnlinkExecutable_close_run (log pt) (closables i) w) as (Ho & Hr & Hu & Hv).
  set (w1 := after w _).
  destruct (UnlinkExecutable_close E (log pt) (closables i) w) as [[p|] o n];
    cbn [val override new] in *; run.
  - rewrite app_nil_r. by destruct Hv.
  - destruct Hv as [Hcl Hn]. rewrite UnlinkExecutable_modules_override. cbn.
    refine (conj _ (conj _ _)); [done | |].
    + apply Forall_app. split; [done|]. rewrite app_nil_r.
      apply UnlinkExecutable_modules_release.
    + split; [done|]. rewrite app_nil_r, closed_app, unlinked_app.
      rewrite UnlinkExecutable_modules_closed, UnlinkExecutable_modules_unlinked, Hu, Hcl.
      split; [by rewrite app_nil_r|].
      eexists. split; [apply (env_range_perm E)|]. split; [done|].
      intros Hl. by rewrite (Hn Hl), UnlinkExecutable_modules_new.
Qed.

Lemma UnlinkExecutable_absent info pt w :
  Instrumentables pt !! Ino info = None ->
  UnlinkExecutable E info pt w
  = match log pt with
    | Some _ => {| val := Returns pt; override := IntegrityModeOverride w;
                   new := [unlink_warning] |}
    | None => {| val := Panics NilPointerDereference;
                 override := IntegrityModeOverride w; new := [] |}
    end.
Proof. intros Hi. unfold UnlinkExecutable. rewrite Hi. by destruct (log pt). Qed.

Lemma no_failed_Close cs ps inos c e :
  CallClose c (Some e) ∉ map (fun c => CallClose c None) cs ++ signal_events ps inos.
Proof.
  intros [Hin|Hin]%elem_of_app.
  - by apply list_elem_of_fmap in Hin as (c' & [=] & _).
  - unfold signal_events in Hin. by apply list_elem_of_fmap in Hin as (x & [=] & _).
Qed.

(** With the logger set [UnlinkExecutable] returns, and what it returns has
    no entry for the inode and the same logger. *)
Lemma UnlinkExecutable_returns info pt w :
  is_Some (log pt) -> exists pt', val (UnlinkExecutable E info pt w) = Returns pt'.
Proof.
  intros [lg Hl]. destruct (Instrumentables pt !! Ino info) as [i|] eqn:Hi.
  - destruct (UnlinkExecutable_present info pt w i Hi) as (_ & _ & Hv).
    destruct (val _) as [pt'|p]; [by eexists|]. destruct Hv as [Hn _]. congruence.
  - rewrite (UnlinkExecutable_absent info pt w Hi), Hl. by eexists.
Qed.

Lemma UnlinkExecutable_removes info pt w pt' :
  val (UnlinkExecutable E info pt w) = Returns pt' ->
  Instrumentables pt' !! Ino info = None /\ log pt' = log pt.
Proof.
  destruct (Instrumentables pt !! Ino info) as [i|] eqn:Hi.
  - destruct (UnlinkExecutable_present info pt w i Hi) as (_ & _ & Hv).
    intros Hr. rewrite Hr in Hv. destruct Hv as (-> & _).
    split; [apply lookup_delete_eq | done].
  - rewrite (UnlinkExecutable_absent info pt w Hi).
    destruct (log pt) eqn:Hl; cbn; [|discriminate]. by intros [= <-].
Qed.

Lemma signals_cons ps ino inos :
  signals ps (ino :: inos) = map (fun p => (tid p, ino)) ps ++ signals ps inos.
Proof. reflexivity. Qed.

Lemma filter_signals_one ps ino (m : N) :
  filter (fun x : N * N => x.2 = m) (map (fun p => (tid p, ino)) ps)
  = if decide (ino = m) then map (fun p => (tid p, ino)) ps else [].
Proof.
  induction ps as [|p ps IH]; [by case_decide|].
  cbn [map]. rewrite filter_cons, IH. cbn. by repeat case_decide.
Qed.

Lemma filter_signals ps inos (m : N) :
  NoDup inos ->
  filter (fun x : N * N => x.2 = m) (signals ps inos)
  = if decide (m ∈ inos) then map (fun p => (tid p, m)) ps else [].
Proof.
  induction 1 as [|ino inos Hnotin Hnd IH].
  - case_decide as Hin; [by apply elem_of_nil in Hin | done].
  - rewrite signals_cons, filter_app, IH, filter_signals_one.
    destruct (decide (ino = m)) as [->|Hne].
    + rewrite decide_False by done. rewrite app_nil_r.
      rewrite decide_True; [done | apply elem_of_cons; by left].
    + cbn. case_decide as Hin.
      * rewrite decide_True; [done | apply elem_of_cons; by right].
      * rewrite decide_False; [done|]. intros [?|?]%elem_of_cons; congruence.
Qed.

Lemma loads_logs p (ls : list (Level * string)) :
  loads p (map (fun l => Log l.1 l.2) ls) = [].
Proof. by induction ls. Qed.

Lemma loadAndAssigns_logs p (ls : list (Level * string)) :
  loadAndAssigns p (map (fun l => Log l.1 l.2) ls) = [].
Proof. by induction ls. Qed.

Lemma loadSpec_run p w :
  let r := loadSpec E p w in
  loads (tid p) (new r) = [failure (Load p w).2]
  /\ loadAndAssigns (tid p) (new r) = []
  /\ override r = IntegrityModeOverride w.
Proof.
  intros r. subst r. unfold loadSpec. run.
  rewrite !loads_app, !loadAndAssigns_app.
  cbn [liftR new val override]. rewrite loads_logs, loadAndAssigns_logs.
  destruct (Load p w) as [ls [spec|e]]; cbn [snd]; run.
  - destruct (env_RewriteConstants E spec (Constants p)); run; cbn; by rewrite decide_True.
  - cbn. by rewrite decide_True.
Qed.

Lemma LoadAndAssign_run p spec w :
  let r := LoadAndAssign E p spec w in
  loads (tid p) (new r) = []
  /\ loadAndAssigns (tid p) (new r) = [val r]
  /\ override r = IntegrityModeOverride w.
Proof. unfold LoadAndAssign. run. cbn. by rewrite decide_True. Qed.

Lemma LoadAndAssign_eq p spec w :
  LoadAndAssign E p spec w
  = {| val := env_LoadAndAssign E w (tid p) spec;
       override := IntegrityModeOverride w;
       new := [CallLoadAndAssign (tid p) (env_LoadAndAssign E w (tid p) spec)] |}.
Proof. reflexivity. Qed.

(** An error of the load of the first bundle is what [loadTracers] returns,
    with nothing done after it. *)
Lemma loadTracers_load_error pt p ps w e :
  Programs pt = p :: ps ->
  val (loadTracers_load E p w) = Some e ->
  val (loadTracers E pt w) = Some e
  /\ new (loadTracers E pt w) = new (loadTracers_load E p w).
Proof.
  intros Hps He. unfold loadTracers. rewrite Hps. cbn [loadTracers_loop]. run.
  rewrite He. run. by rewrite !app_nil_r.
Qed.

(** C2: the load of one bundle in [loadTracers], by what [loadSpec] and the
    kernel answer.  [w1] is the world [loadSpec] is first called in, [w2] the
    one the kernel is first asked in, [las] the answers of [LoadAndAssign]
    and [lds] the calls of the bundle's [Load] in the run.  When [loadSpec]
    fails, or the kernel load succeeds, or it fails with a diagnostic that
    does not contain [unknown func bpf_probe_write_user], the bundle was
    loaded once, the flag is untouched and the failure, if any, is returned
    at once.  When the kernel load fails with a diagnostic that contains it,
    the flag is set and the bundle is loaded a second time, in the world
    [w3] with the flag set, and no third: the kernel's second answer is the
    last, and a failure of the second load (of [loadSpec] or of the kernel
    load) is returned.  An error returned for the first bundle is the error
    of [loadTracers], which does nothing after it. *)
Theorem loadTracers_load_fallback p w :
  let r := loadTracers_load E p w in
  let las := loadAndAssigns (tid p) (new r) in
  let lds := loads (tid p) (new r) in
  let w1 := after w (emit [Log LevelDebug "loading eBPF program"] w) in
  let s1 := loadSpec E p w1 in
  match val s1 with
  | Err e =>
      val r = Some e /\ las = [] /\ length lds = 1%nat
      /\ override r = IntegrityModeOverride w
  | Ok spec =>
      let w2 := after w1 s1 in
      match env_LoadAndAssign E w2 (tid p) spec with
      | None =>
          val r = None /\ las = [None] /\ length lds = 1%nat
          /\ override r = IntegrityModeOverride w
      | Some e =>
          if Contains e missing_helper then
            let w3 := {| IntegrityModeOverride := true;
                         trace := trace w2 ++ [CallLoadAndAssign (tid p) (Some e);
                                               Log LevelWarn missing_helper_warning] |} in
            let s2 := loadSpec E p w3 in
            override r = true /\ length lds = 2%nat
            /\ match val s2 with
               | Err e' =>
                   val r = Some ("loading and assigning BPF objects: " +:+ e')
                   /\ las = [Some e]
               | Ok spec' =>
                   let a := env_LoadAndAssign E (after w3 s2) (tid p) spec' in
                   las = [Some e; a]
                   /\ val r = match a with
                              | Some e' => Some ("loading and assigning BPF objects: " +:+ e')
                              | None => None
                              end
               end
          else
            val r = Some ("loading and assigning BPF objects: " +:+ e)
            /\ las = [Some e] /\ length lds = 1%nat
            /\ override r = IntegrityModeOverride w
      end
  end
  /\ forall pt ps e, Programs pt = p :: ps -> val r = Some e ->
       val (loadTracers E pt w) = Some e /\ new (loadTracers E pt w) = new r.
Proof.
  cbn zeta. split.
  2:{ intros pt ps e Hps He. by apply (loadTracers_load_error pt p ps w e). }
  unfold loadTracers_load. run.
  set (w1 := after w (emit _ w)).
  destruct (loadSpec_run p w1) as (Hl1 & Ha1 & Ho1).
  destruct (loadSpec E p w1) as [[spec|err] o1 n1]; cbn [val override new] in *; run.
  2:{ rewrite !loads_app, !loadAndAssigns_app, Hl1, Ha1. cbn. by rewrite Ho1. }
  set (w2 := after w1 _).
  rewrite (LoadAndAssign_eq p spec w2). cbn [val override new].
  destruct (env_LoadAndAssign E w2 (tid p) spec) as [e|]; run.
  2:{ rewrite !loads_app, !loadAndAssigns_app, Hl1, Ha1. cbn.
      rewrite decide_True by done. by rewrite Ho1. }
  destruct (Contains e missing_helper) eqn:Hc; run.
  2:{ unfold printVerifierErrorInfo. run.
      rewrite !loads_app, !loadAndAssigns_app, Hl1, Ha1. cbn.
      rewrite decide_True by done. by rewrite Ho1. }
  set (w3 := {| IntegrityModeOverride := true; trace := _ |}).
  match goal with
  | |- context [loadSpec E p ?w'] =>
      lazymatch w' with
      | w3 => fail
      | w1 => fail
      | _ => assert (w' = w3) as ->
      end
  end.
  { unfold after, w3. cbn. f_equal. by rewrite <- !app_assoc. }
  destruct (loadSpec_run p w3) as (Hl3 & Ha3 & Ho3).
  destruct (loadSpec E p w3) as [[spec'|err'] o3 n3]; cbn [val override new] in *; run.
  2:{ unfold printVerifierErrorInfo. run.
      rewrite !loads_app, !loadAndAssigns_app, Hl1, Ha1, Hl3, Ha3. cbn.
      rewrite decide_True by done. by rewrite Ho3. }
  set (w4 := after w3 _).
  rewrite (LoadAndAssign_eq p spec' w4). cbn [val override new].
  destruct (env_LoadAndAssign E w4 (tid p) spec') as [e'|]; run;
    unfold printVerifierErrorInfo; run;
    rewrite !loads_app, !loadAndAssigns_app, Hl1, Ha1, Hl3, Ha3; cbn;
    rewrite !decide_True by done; by rewrite Ho3.
Qed.

Lemma fallback_in_app_l es1 es2 : fallback_in es1 -> fallback_in (es1 ++ es2).
Proof. intros (q & e & Hin & Hc). exists q, e. split; [|done]. apply elem_of_app. by left. Qed.

Lemma fallback_in_app_r es1 es2 : fallback_in es2 -> fallback_in (es1 ++ es2).
Proof. intros (q & e & Hin & Hc). exists q, e. split; [|done]. apply elem_of_app. by right. Qed.

Lemma flag_kept_bind {A B} (m : M A) (f : A -> M B) w :
  flag_kept w (m w) ->
  (forall a w', flag_kept w' (f a w')) ->
  flag_kept w ((m ≫= f) w).
Proof.
  intros Hm Hf. specialize (Hf (val (m w)) (after w (m w))).
  unfold flag_kept in *. rewrite override_bind, new_bind, override_after in *.
  destruct Hm as [Hm|[Hm Hfb]], Hf as [Hf|[Hf Hfb']].
  - left. congruence.
  - right. eauto using fallback_in_app_r.
  - right. split; [congruence | eauto using fallback_in_app_l].
  - right. eauto using fallback_in_app_r.
Qed.

Lemma flag_kept_same {A} (r : common.Run A) w : override r = IntegrityModeOverride w -> flag_kept w r.
Proof. by left. Qed.

Lemma loadTracers_load_flag p w : flag_kept w (loadTracers_load E p w).
Proof.
  unfold loadTracers_load.
  apply flag_kept_bind; [by left|]. intros _ w1.
  apply flag_kept_bind; [left; apply loadSpec_run|]. intros [spec|err] w2; [|by left].
  unfold flag_kept. run.
  assert (new (LoadAndAssign E p spec w2)
          = [CallLoadAndAssign (tid p) (val (LoadAndAssign E p spec w2))]) as Hn by reflexivity.
  assert (override (LoadAndAssign E p spec w2) = IntegrityModeOverride w2) as Ho by reflexivity.
  destruct (LoadAndAssign E p spec w2) as [[e|] o2 n2]; cbn [val override new] in *; run;
    [|by left].
  set (w3 := after w2 _).
  destruct (Contains e missing_helper) eqn:Hc; run.
  - right. split.
    + set (w4 := after (after w3 _) _).
      destruct (loadSpec_run p w4) as (_ & _ & Ho4).
      destruct (loadSpec E p w4) as [[spec'|err'] o4 n4]; cbn [val override new] in *; run.
      * set (w5 := after w4 _).
        assert (override (LoadAndAssign E p spec' w5) = IntegrityModeOverride w5) as Ho5
          by reflexivity.
        destruct (LoadAndAssign E p spec' w5) as [[e'|] o5 n5];
          cbn [val override new] in *; unfold printVerifierErrorInfo; run;
          subst o5 w5; by rewrite override_after, Ho4.
      * unfold printVerifierErrorInfo. run. by rewrite Ho4.
    + subst n2. apply fallback_in_app_l. exists (tid p), e. split; [|done].
      apply list_elem_of_singleton. reflexivity.
  - left. unfold printVerifierErrorInfo. run. done.
Qed.

Lemma silent_bind {A B} (m : M A) (f : A -> M B) w :
  silent w (m w) ->
  (forall a w', silent w' (f a w')) ->
  silent w ((m ≫= f) w).
Proof.
  intros (Ho & Hc & Hu) Hf.
  destruct (Hf (val (m w)) (after w (m w))) as (Ho' & Hc' & Hu').
  unfold silent. rewrite override_bind, new_bind, closed_app, unlinked_app.
  rewrite Hc, Hu, Hc', Hu', Ho', override_after. done.
Qed.

Lemma silent_flag_kept {A} w (r : common.Run A) : silent w r -> flag_kept w r.
Proof. intros (Ho & _). by left. Qed.

Lemma silent_ret {A} (a : A) w : silent w ((mret a : M A) w).
Proof. done. Qed.

Lemma attach_silent kind pid i p w : silent w (attach E kind pid i p w).
Proof. done. Qed.

Lemma printVerifierErrorInfo_silent e w : silent w (printVerifierErrorInfo e w).
Proof. done. Qed.

Lemma loadTracers_setup_silent i p w : silent w (loadTracers_setup E i p w).
Proof.
  unfold loadTracers_setup, kprobes, tracepoints, sockfilters.
  repeat (apply silent_bind; [first [apply attach_silent | done] | intros [] ?]).
  repeat first
    [ apply silent_bind; [first [apply attach_silent | apply printVerifierErrorInfo_silent] |]
    | apply silent_ret | intros [] ? | case_match ].
Qed.

Lemma NewExecutableInstance_loop_silent pid i ps w :
  silent w (NewExecutableInstance_loop E pid i ps w).
Proof.
  revert i w. induction ps as [|p ps IH]; intros i w; [done|].
  cbn [NewExecutableInstance_loop]. unfold uprobes.
  apply silent_bind; [apply attach_silent|]. intros [i' [e|]] w'; [|apply IH].
  apply silent_bind; [apply printVerifierErrorInfo_silent | done].
Qed.

Lemma NewExecutable_loop_silent ie i ps w :
  silent w (NewExecutable_loop E ie i ps w).
Proof.
  revert i w. induction ps as [|p ps IH]; intros i w; [done|].
  cbn [NewExecutable_loop]. unfold goprobes, uprobes.
  apply silent_bind; [done|]. intros _ w1.
  apply silent_bind; [apply attach_silent|]. intros [i1 [e|]] w2.
  { apply silent_bind; [apply printVerifierErrorInfo_silent | done]. }
  apply silent_bind; [apply attach_silent|]. intros [i2 [e|]] w3; [|apply IH].
  apply silent_bind; [apply printVerifierErrorInfo_silent | done].
Qed.

Lemma NewExecutable_silent exe_ ie pt w : silent w (NewExecutable E exe_ ie pt w).
Proof.
  unfold NewExecutable.
  apply silent_bind; [apply NewExecutable_loop_silent|]. by intros [i [e|]] w'.
Qed.

Lemma NewExecutableInstance_silent ie pt w : silent w (NewExecutableInstance E ie pt w).
Proof.
  unfold NewExecutableInstance. case_match; [|by destruct (log pt)].
  apply silent_bind; [apply NewExecutableInstance_loop_silent|]. by intros [i' err] w'.
Qed.

Lemma Run_silent pt w : silent w (Run pt w).
Proof.
  unfold Run, silent. cbn. split_and!; [done | |]; by induction (Programs pt).
Qed.

Lemma NewExecutable_error_val exe_ ie pt w e :
  (val (NewExecutable E exe_ ie pt w)).2 = Some e ->
  (val (NewExecutable E exe_ ie pt w)).1 = pt.
Proof.
  unfold NewExecutable. rewrite !val_bind.
  destruct (val (NewExecutable_loop _ _ _ _ _)) as [i [e'|]]; [done|].
  cbn. discriminate.
Qed.

Lemma UnlinkExecutable_flag info pt w :
  override (UnlinkExecutable E info pt w) = IntegrityModeOverride w.
Proof.
  destruct (Instrumentables pt !! Ino info) as [i|] eqn:Hi.
  - by destruct (UnlinkExecutable_present info pt w i Hi) as (? & _).
  - rewrite UnlinkExecutable_absent by done. by destruct (log pt).
Qed.

Lemma loadTracers_loop_flag i ps w : flag_kept w (loadTracers_loop E i ps w).
Proof.
  revert i w. induction ps as [|p ps IH]; intros i w; [by left|].
  cbn [loadTracers_loop].
  apply flag_kept_bind; [apply loadTracers_load_flag|]. intros [e|] w1; [by left|].
  apply flag_kept_bind; [apply silent_flag_kept, loadTracers_setup_silent|].
  intros [i' [e|]] w2; [by left | apply IH].
Qed.

Lemma loadTracers_flag pt w : flag_kept w (loadTracers E pt w).
Proof.
  unfold loadTracers.
  apply flag_kept_bind; [apply loadTracers_loop_flag|]. intros [e|] w1; by left.
Qed.

Lemma op_flag pt o w : flag_kept w (op E pt o w).
Proof.
  destruct o as [| |exe_ ie|ie|info]; cbn [op].
  - apply flag_kept_bind; [apply silent_flag_kept, Run_silent | by left].
  - apply flag_kept_bind; [apply loadTracers_flag | by left].
  - apply flag_kept_bind; [apply silent_flag_kept, NewExecutable_silent|].
    intros [] ?. by left.
  - apply flag_kept_bind; [apply silent_flag_kept, NewExecutableInstance_silent|].
    intros [[]|] ?; by left.
  - left. apply UnlinkExecutable_flag.
Qed.

Lemma op_not_Init_flag pt o w :
  o <> OpInit -> override (op E pt o w) = IntegrityModeOverride w.
Proof.
  destruct o as [| |exe_ ie|ie|info]; cbn [op]; intros Ho; [|done|..].
  - rewrite override_bind. cbn. apply Run_silent.
  - rewrite override_bind. destruct (val _). cbn. apply NewExecutable_silent.
  - rewrite override_bind. destruct (val _) as [[]|]; cbn; apply NewExecutableInstance_silent.
  - apply UnlinkExecutable_flag.
Qed.

Lemma ops_flag pt os w : flag_kept w (ops E pt os w).
Proof.
  revert pt w. induction os as [|o os IH]; intros pt w; [by left|].
  cbn [ops]. apply flag_kept_bind; [apply op_flag|].
  intros [pt'|pn] w'; [apply IH | by left].
Qed.

Lemma ops_not_Init_flag pt os w :
  Forall (fun o => o <> OpInit) os -> override (ops E pt os w) = IntegrityModeOverride w.
Proof.
  intros Hos. revert pt w. induction Hos as [|o os Ho Hos IH]; intros pt w; [done|].
  cbn [ops]. rewrite override_bind.
  destruct (val (op E pt o w)) as [pt'|pn]; [rewrite IH, override_after | cbn];
    by apply op_not_Init_flag.
Qed.

(** C1 (as amended): for an inode present in the map, [UnlinkExecutable]
    calls [Close] on the closables of its instrumenter in the order they were
    appended, the first appended first: what it has closed is always a
    prefix of the list, and the whole list, the last appended last, when it
    returns.  It returns whenever the logger is set; when it does not, the
    logger is nil and it stopped at the first [Close] that failed. *)
Theorem UnlinkExecutable_closes_in_insertion_order info pt w i :
  Instrumentables pt !! Ino info = Some i ->
  let r := UnlinkExecutable E info pt w in
  closed (new r) `prefix_of` closables i
  /\ (forall pt', val r = Returns pt' -> closed (new r) = closables i)
  /\ (is_Some (log pt) -> exists pt', val r = Returns pt')
  /\ (forall pn, val r = Panics pn ->
        log pt = None /\ stopped_at_failure (closables i) (new r)).
Proof.
  intros Hi r. subst r.
  destruct (UnlinkExecutable_present info pt w i Hi) as (_ & _ & Hv).
  split_and!; [| |apply UnlinkExecutable_returns|].
  - destruct (val _) as [pt'|pn].
    + destruct Hv as (_ & -> & _). done.
    + destruct Hv as [_ Hs]. by apply stopped_at_failure_closed in Hs as (? & _).
  - intros pt' Hr. rewrite Hr in Hv. by destruct Hv as (_ & ? & _).
  - intros pn Hr. by rewrite Hr in Hv.
Qed.

(** C7: for an inode present in the map with module set [modules i], an
    [UnlinkExecutable] that returns has signalled [UnlinkInstrumentedLib m]
    to every program exactly once, in the order of [Programs], for each
    module [m] of the set and for no other inode, and the tracer it returns
    has no entry for the inode.  It returns whenever the logger is set.  On
    the nil logger that [NewProcessTracer] leaves, a [Close] that fails makes
    it panic instead, and only that does: no module is signalled. *)
Theorem UnlinkExecutable_signals_every_module info pt w i :
  Instrumentables pt !! Ino info = Some i ->
  let r := UnlinkExecutable E info pt w in
  match val r with
  | Returns pt' =>
      (forall m, m ∈ modules i ->
         filter (fun x : N * N => x.2 = m) (unlinked (new r))
         = map (fun p => (tid p, m)) (Programs pt))
      /\ (forall m, m ∉ modules i ->
            filter (fun x : N * N => x.2 = m) (unlinked (new r)) = [])
      /\ Instrumentables pt' !! Ino info = None
  | Panics _ =>
      log pt = None
      /\ (exists c e, CallClose c (Some e) ∈ new r)
      /\ unlinked (new r) = []
  end
  /\ (is_Some (log pt) -> exists pt', val r = Returns pt')
  /\ (log pt = None -> forall c e, CallClose c (Some e) ∈ new r ->
        exists pn, val r = Panics pn).
Proof.
  intros Hi r. subst r.
  destruct (UnlinkExecutable_present info pt w i Hi) as (_ & _ & Hv).
  split; [|split; [apply UnlinkExecutable_returns|]].
  2:{ intros Hl c e Hin. destruct (val (UnlinkExecutable E info pt w)) as [pt'|pn];
        [|by eexists].
      destruct Hv as (_ & _ & inos & _ & _ & Hn). rewrite (Hn Hl) in Hin.
      by apply no_failed_Close in Hin. }
  destruct (val (UnlinkExecutable E info pt w)) as [pt'|pn] eqn:Hr.
  - destruct Hv as (Hpt & _ & inos & Hp & Hu & _).
    assert (NoDup inos) as Hnd by (rewrite Hp; apply NoDup_elements).
    assert (forall m, m ∈ inos <-> m ∈ modules i) as Hin
      by (intros m; rewrite Hp; apply elem_of_elements).
    rewrite Hu. split_and!.
    + intros m Hm. rewrite filter_signals by done. by rewrite decide_True by by apply Hin.
    + intros m Hm. rewrite filter_signals by done. by rewrite decide_False by by rewrite Hin.
    + by apply (UnlinkExecutable_removes info pt w).
  - destruct Hv as [Hl Hs]. apply stopped_at_failure_closed in Hs as (_ & Hu & _ & Hc).
    done.
Qed.

(** C8: for an inode absent from the map, [UnlinkExecutable] releases no
    handle and signals no program; with the logger set it logs one warning
    and returns the tracer as it was, and on the nil logger that
    [NewProcessTracer] leaves it panics in the call that would log.  A second
    [UnlinkExecutable] for the same inode, on what a first one returned,
    finds no entry and does the same. *)
Theorem UnlinkExecutable_unknown_inode info pt w :
  (Instrumentables pt !! Ino info = None ->
     let r := UnlinkExecutable E info pt w in
     closed (new r) = [] /\ unlinked (new r) = []
     /\ r = match log pt with
            | Some _ => {| val := Returns pt; override := IntegrityModeOverride w;
                           new := [unlink_warning] |}
            | None => {| val := Panics NilPointerDereference;
                         override := IntegrityModeOverride w; new := [] |}
            end)
  /\ (forall pt', val (UnlinkExecutable E info pt w) = Returns pt' ->
      let r := UnlinkExecutable E info pt w in
      let r' := UnlinkExecutable E info pt' (after w r) in
      closed (new r') = [] /\ unlinked (new r') = []
      /\ r' = match log pt with
              | Some _ => {| val := Returns pt'; override := override r;
                             new := [unlink_warning] |}
              | None => {| val := Panics NilPointerDereference;
                           override := override r; new := [] |}
              end).
Proof.
  split.
  - intros Hi r. subst r. rewrite (UnlinkExecutable_absent info pt w Hi).
    by destruct (log pt).
  - intros pt' Hr r r'. subst r'.
    destruct (UnlinkExecutable_removes info pt w pt' Hr) as [Hi Hl].
    rewrite (UnlinkExecutable_absent info pt' (after w r) Hi), Hl.
    by destruct (log pt).
Qed.

(** C10: for an inode present in the map, [UnlinkExecutable] does nothing but
    release, log at debug level and signal.  With the logger set, whatever
    [Close] answers, it calls [Close] on every closable (an error is logged
    and stops nothing), signals every recorded module to every program and
    returns the tracer without the entry; it has no error to return.  On the
    nil logger that [NewProcessTracer] leaves it does the same as long as
    every [Close] succeeds, and panics at the first [Close] that fails: the
    closables after that one stay open, no module is signalled and nothing is
    returned. *)
Theorem UnlinkExecutable_tolerates_Close_errors info pt w i :
  Instrumentables pt !! Ino info = Some i ->
  let r := UnlinkExecutable E info pt w in
  Forall release_event (new r)
  /\ match log pt with
     | Some _ =>
         closed (new r) = closables i
         /\ (exists inos, inos ≡ₚ elements (modules i)
                          /\ unlinked (new r) = signals (Programs pt) inos)
         /\ val r = Returns (with_Instrumentables pt (delete (Ino info) (Instrumentables pt)))
     | None =>
         match val r with
         | Returns pt' =>
             pt' = with_Instrumentables pt (delete (Ino info) (Instrumentables pt))
             /\ exists inos, inos ≡ₚ elements (modules i)
                  /\ new r = map (fun c => CallClose c None) (closables i)
                             ++ signal_events (Programs pt) inos
         | Panics _ => stopped_at_failure (closables i) (new r)
         end
     end.
Proof.
  intros Hi r. subst r.
  destruct (UnlinkExecutable_present info pt w i Hi) as (_ & Hrel & Hv).
  split; [done|].
  destruct (log pt) as [lg|] eqn:Hl.
  - destruct (val _) as [pt'|pn]; [|destruct Hv; congruence].
    destruct Hv as (-> & Hc & inos & Hp & Hu & _). split_and!; [done | by exists inos | done].
  - destruct (val _) as [pt'|pn]; [|by destruct Hv].
    destruct Hv as (-> & Hc & inos & Hp & Hu & Hn). split; [done|].
    exists inos. split; [done | by apply Hn].
Qed.

(** C3: when [NewExecutable] returns an error, it has called [Close] on
    nothing, whatever was attached before the failure, and it leaves the
    tracer as it was: the instrumenter that holds the new handles is not in
    the map.  A later [UnlinkExecutable] for the inode therefore releases
    only what the map held for it before the failed call, and nothing when it
    held nothing: the handles of the failed call are out of its reach. *)
Theorem NewExecutable_error_keeps_handles exe_ ie pt w e :
  (val (NewExecutable E exe_ ie pt w)).2 = Some e ->
  let r := NewExecutable E exe_ ie pt w in
  closed (new r) = []
  /\ (val r).1 = pt
  /\ forall w',
       let u := UnlinkExecutable E (ie_FileInfo ie) (val r).1 w' in
       closed (new u)
         `prefix_of` from_option closables [] (Instrumentables pt !! Ino (ie_FileInfo ie))
       /\ (is_Some (log pt) ->
           closed (new u)
           = from_option closables [] (Instrumentables pt !! Ino (ie_FileInfo ie))).
Proof.
  intros He r. subst r. split_and!.
  - apply NewExecutable_silent.
  - by apply NewExecutable_error_val in He.
  - intros w' u. subst u. rewrite (NewExecutable_error_val _ _ _ _ _ He).
    destruct (Instrumentables pt !! Ino (ie_FileInfo ie)) as [i|] eqn:Hi.
    + destruct (UnlinkExecutable_present _ pt w' i Hi) as (_ & _ & Hv). cbn [from_option].
      split.
      * destruct (val (UnlinkExecutable E (ie_FileInfo ie) pt w')) as [pt'|pn].
        -- by destruct Hv as (_ & -> & _).
        -- destruct Hv as [_ Hs]. by apply stopped_at_failure_closed in Hs as (? & _).
      * intros Hl. destruct (UnlinkExecutable_returns (ie_FileInfo ie) pt w' Hl) as [pt' Hr].
        rewrite Hr in Hv. by destruct Hv as (_ & ? & _).
    + rewrite UnlinkExecutable_absent by done. by destruct (log pt).
Qed.

(** C6: along any sequence of [Run], [Init], [NewExecutable],
    [NewExecutableInstance] and [UnlinkExecutable], a flag that is set stays
    set; a flag that changed was set, and the events of the sequence hold a
    kernel load that failed with the missing-helper diagnostic; and a
    sequence without [Init] leaves the flag as it was. *)
Theorem IntegrityModeOverride_monotonic pt os w :
  let r := ops E pt os w in
  (IntegrityModeOverride w = true -> override r = true)
  /\ (override r <> IntegrityModeOverride w -> override r = true /\ fallback_in (new r))
  /\ (Forall (fun o => o <> OpInit) os -> override r = IntegrityModeOverride w).
Proof.
  intros r. subst r. split_and!.
  - intros Hw. destruct (ops_flag pt os w) as [Ho|[Ho _]]; congruence.
  - intros Hne. by destruct (ops_flag pt os w) as [Ho|[Ho Hf]].
  - apply ops_not_Init_flag.
Qed.

End ebpf_facts.

(** ** The theorems at sample inputs *)
Section ebpf_samples.
Import common goexec ebpf samples.

Example Run_sample :
  Run pt1 start
  = {| val := with_log pt1 (Some [("component", AttrString "ebpf.ProcessTracer");
                                  ("type", AttrInt 0)]);
       override := false;
       new := [Log LevelDebug "starting process tracer"; GoRun 1; GoRun 2] |}
  /\ log pt1 = None /\ is_Some (log running1)
  /\ Instrumentables running1 = Instrumentables pt1.
Proof. split_and!; [reflexivity | reflexivity | by eexists | reflexivity]. Qed.

Lemma UnlinkExecutable_closes_in_insertion_order_sample :
  Instrumentables running1 !! Ino info1 = Some instr1
  /\ let r := UnlinkExecutable close1_fails info1 running1 start in
     closed (new r) `prefix_of` closables instr1
     /\ (forall pt', val r = Returns pt' -> closed (new r) = closables instr1)
     /\ (is_Some (log running1) -> exists pt', val r = Returns pt')
     /\ (forall pn, val r = Panics pn ->
           log running1 = None /\ stopped_at_failure (closables instr1) (new r)).
Proof.
  split; [reflexivity|].
  apply (UnlinkExecutable_closes_in_insertion_order close1_fails info1 running1 start instr1).
  reflexivity.
Defined.

(** C1 as stated fails: handles 1, 2, 3 were appended in that order, and
    [Close] is called on 1 first and on 3 last, not the reverse. *)
Lemma UnlinkExecutable_not_in_reverse_order :
  Instrumentables running1 !! Ino info1 = Some instr1
  /\ closables instr1 = [1; 2; 3]%N
  /\ (exists pt', val (UnlinkExecutable quiet info1 running1 start) = Returns pt')
  /\ closed (new (UnlinkExecutable quiet info1 running1 start)) = [1; 2; 3]%N
  /\ closed (new (UnlinkExecutable quiet info1 running1 start)) <> rev (closables instr1).
Proof.
  split_and!; [reflexivity | reflexivity | by eexists | reflexivity | by vm_compute].
Qed.

(** The failing input of C7: the tracer as [NewProcessTracer] leaves it, with
    an entry for inode 7, and a [Close] that fails on handle 1. *)
Lemma UnlinkExecutable_signals_every_module_sample :
  Instrumentables pt1 !! Ino info1 = Some instr1
  /\ let r := UnlinkExecutable close1_fails info1 pt1 start in
     val r = Panics NilPointerDereference
     /\ log pt1 = None
     /\ (exists c e, CallClose c (Some e) ∈ new r)
     /\ unlinked (new r) = []
     /\ modules instr1 = {[ 100%N; 200%N ]}.
Proof.
  split; [reflexivity|].
  pose proof (UnlinkExecutable_signals_every_module close1_fails info1 pt1 start instr1
                eq_refl) as [H _].
  cbv zeta. split; [reflexivity|].
  destruct H as (Hl & Hc & Hu). split_and!; [exact Hl | exact Hc | exact Hu | reflexivity].
Defined.

Example UnlinkExecutable_signals_sample :
  unlinked (new (UnlinkExecutable quiet info1 running1 start))
  = [(1, 100); (2, 100); (1, 200); (2, 200)]%N
  /\ unlinked (new (UnlinkExecutable quiet info1 pt1 start))
     = [(1, 100); (2, 100); (1, 200); (2, 200)]%N
  /\ unlinked (new (UnlinkExecutable close1_fails info1 running1 start))
     = [(1, 100); (2, 100); (1, 200); (2, 200)]%N
  /\ unlinked (new (UnlinkExecutable close1_fails info1 pt1 start)) = [].
Proof. by vm_compute. Qed.

(** The failing input of C8: the tracer as [NewProcessTracer] leaves it and
    an inode it does not know; next to it the same call once [Run] has set
    the logger. *)
Lemma UnlinkExecutable_unknown_inode_sample :
  Instrumentables pt0 !! Ino info1 = None
  /\ UnlinkExecutable quiet info1 pt0 start
     = {| val := Panics NilPointerDereference; override := false; new := [] |}
  /\ UnlinkExecutable quiet info1 running0 start
     = {| val := Returns running0; override := false; new := [unlink_warning] |}.
Proof.
  split; [reflexivity|]. split.
  - destruct (UnlinkExecutable_unknown_inode quiet info1 pt0 start) as [H _].
    destruct (H eq_refl) as (_ & _ & Hr). exact Hr.
  - destruct (UnlinkExecutable_unknown_inode quiet info1 running0 start) as [H _].
    destruct (H eq_refl) as (_ & _ & Hr). exact Hr.
Defined.

Example UnlinkExecutable_twice_sample :
  let r := UnlinkExecutable quiet info1 running1 start in
  closed (new r) = [1; 2; 3]%N
  /\ exists pt', val r = Returns pt'
       /\ new (UnlinkExecutable quiet info1 pt' (after start r)) = [unlink_warning].
Proof. cbv zeta. split; [reflexivity|]. eexists. split; reflexivity. Qed.

(** The failing input of C10: the tracer as [NewProcessTracer] leaves it,
    with an entry for inode 7 that holds handles 1, 2, 3 and two modules, and
    a [Close] that fails on handle 1. *)
Lemma UnlinkExecutable_tolerates_Close_errors_sample :
  Instrumentables pt1 !! Ino info1 = Some instr1
  /\ let r := UnlinkExecutable close1_fails info1 pt1 start in
     Forall release_event (new r)
     /\ val r = Panics NilPointerDereference
     /\ stopped_at_failure (closables instr1) (new r)
     /\ new r = [CallClose 1 (Some "bad file descriptor")]
     /\ closables instr1 = [1; 2; 3]%N.
Proof.
  split; [reflexivity|].
  pose proof (UnlinkExecutable_tolerates_Close_errors close1_fails info1 pt1 start instr1
                eq_refl) as [Hrel H].
  cbv zeta. split_and!; [exact Hrel | reflexivity | exact H | reflexivity | reflexivity].
Defined.

(** With the logger set the failure of [Close] is logged and stops nothing. *)
Example UnlinkExecutable_failed_Close_sample :
  new (UnlinkExecutable close1_fails info1 running1 start)
  = [ CallClose 1 (Some "bad file descriptor"); Log LevelDebug "Unable to close on unlink";
      CallClose 2 None; CallClose 3 None;
      CallUnlinkInstrumentedLib 1 100; CallUnlinkInstrumentedLib 2 100;
      CallUnlinkInstrumentedLib 1 200; CallUnlinkInstrumentedLib 2 200 ]%N
  /\ val (UnlinkExecutable close1_fails info1 running1 start)
     = Returns (with_Instrumentables running1 ∅).
Proof. by vm_compute. Qed.

(** The failing input of C3: [goprobes] attaches handle 5, [uprobes]
    attaches handle 6 and is then refused; the logger is set, so that the
    unlink that follows returns. *)
Lemma NewExecutable_error_keeps_handles_sample :
  (val (NewExecutable uprobes_refused "/bin/app" ie1 running0 start)).2 = Some "attach refused"
  /\ let r := NewExecutable uprobes_refused "/bin/app" ie1 running0 start in
     closed (new r) = []
     /\ (val r).1 = running0
     /\ forall w',
          let u := UnlinkExecutable uprobes_refused (ie_FileInfo ie1) (val r).1 w' in
          closed (new u)
            `prefix_of` from_option closables []
                          (Instrumentables running0 !! Ino (ie_FileInfo ie1))
          /\ (is_Some (log running0) ->
              closed (new u)
              = from_option closables []
                  (Instrumentables running0 !! Ino (ie_FileInfo ie1))).
Proof.
  split; [reflexivity|].
  apply (NewExecutable_error_keeps_handles uprobes_refused "/bin/app" ie1 running0 start
           "attach refused").
  reflexivity.
Defined.

(** What the code does there: [goprobes] appended handle 5 and [uprobes]
    handle 6 before the refusal; [NewExecutable] returns the error, and the
    [UnlinkExecutable] that follows for the same inode finds no entry, warns
    and releases neither. *)
Lemma NewExecutable_error_handles_not_released :
  let i0 := {| offsets := Some (ie_Offsets ie1); exe := Some "/bin/app";
               closables := []; modules := ∅ |} in
  let r := NewExecutable uprobes_refused "/bin/app" ie1 running0 start in
  let r' := UnlinkExecutable uprobes_refused (ie_FileInfo ie1) (val r).1 (after start r) in
  (val r).2 = Some "attach refused"
  /\ closables (val (NewExecutable_loop uprobes_refused ie1 i0 (Programs running0) start)).1
     = [5; 6]%N
  /\ closed (new r) = []
  /\ r' = {| val := Returns running0; override := false; new := [unlink_warning] |}
  /\ (5%N ∉ closed (new r')) /\ (6%N ∉ closed (new r')).
Proof.
  cbv zeta. split_and!; [reflexivity..| |]; cbn; apply not_elem_of_nil.
Qed.

Example NewExecutable_error_sample :
  new (NewExecutable uprobes_refused "/bin/app" ie1 pt0 start)
  = [ CallRegisterOffsets 1 7; CallAttach GoProbe 1 [5%N] [] None;
      CallAttach UProbe 1 [6%N] [100%N] (Some "attach refused");
      PrintVerifierErrorInfo "attach refused" ].
Proof. reflexivity. Qed.

(** The second scenario of the specification: the first kernel load is
    rejected for the missing helper, the second succeeds. *)
Example loadTracers_fallback_sample :
  let r := loadTracers no_write_helper pt0 start in
  val r = None /\ override r = true
  /\ loads 1 (new r) = [None; None]
  /\ loadAndAssigns 1 (new r)
     = [ Some "program uprobe_WriteSubset: load program: invalid argument: unknown func bpf_probe_write_user#36";
         None ].
Proof. by vm_compute. Qed.

Example ops_sample :
  let r := ops no_write_helper pt0
             [OpInit; OpRun; OpNewExecutable "/bin/app" ie1; OpUnlinkExecutable info1] start in
  override r = true
  /\ exists pt', val r = Returns pt' /\ Instrumentables pt' !! 7%N = None
  /\ val (ops no_write_helper pt0 [OpInit; OpUnlinkExecutable info1] start)
     = Panics NilPointerDereference.
Proof. cbv zeta. split; [reflexivity|]. eexists. split_and!; reflexivity. Qed.

End ebpf_samples.

(** ** The Go tracer *)
Section gotracer_facts.
Import common goexec gotracer.
Context (SupportsContextPropagation : R bool) (sizeof_HTTPRequestTrace : Z).
Context {CollectionSpec : Type} (loader : Loader -> result CollectionSpec).

Lemma foldl_insert_lookup (f : gmap string any -> string -> gmap string any)
    (g : string -> any) (l : list string) (m : gmap string any) s :
  (forall m k, f m k = <[k := g k]> m) ->
  foldl f m l !! s = if decide (s ∈ l) then Some (g s) else m !! s.
Proof.
  intros Hf. revert m. induction l as [|k l IH]; intros m; cbn [foldl].
  - by rewrite decide_False by apply not_elem_of_nil.
  - rewrite IH, Hf. destruct (decide (s ∈ l)) as [Hin|Hnin].
    + rewrite decide_True; [done | apply elem_of_cons; by right].
    + destruct (decide (k = s)) as [->|Hne].
      * rewrite lookup_insert_eq. rewrite decide_True; [done | apply elem_of_cons; by left].
      * rewrite lookup_insert_ne by done. rewrite decide_False; [done|].
        intros [?|?]%elem_of_cons; congruence.
Qed.

Lemma set_optional_insert offsets (m : gmap string any) k :
  set_optional offsets m k
  = <[k := if decide (index (Field offsets) k = Nil)
           then Uint64 0xffffffffffffffff else index (Field offsets) k]> m.
Proof.
  unfold set_optional.
  assert (index (<[k := index (Field offsets) k]> m) k = index (Field offsets) k) as ->.
  { unfold index at 1. by rewrite (lookup_insert_eq m). }
  case_decide; [apply insert_insert_eq | done].
Qed.

Lemma Constants_lookup p offsets s :
  Constants sizeof_HTTPRequestTrace p offsets !! s
  = if decide (s ∈ optional_keys)
    then Some (if decide (index (Field offsets) s = Nil)
               then Uint64 0xffffffffffffffff else index (Field offsets) s)
    else if decide (s ∈ required_keys) then Some (index (Field offsets) s)
    else if decide (s = "wakeup_data_bytes")
    then Some (Uint32 (uint32 (uint32 (WakeupLen (cfg p)) * uint32 sizeof_HTTPRequestTrace)))
    else None.
Proof.
  unfold Constants.
  rewrite (foldl_insert_lookup _ _ _ _ _ (set_optional_insert offsets)).
  case_decide; [done|].
  rewrite (foldl_insert_lookup _ (index (Field offsets))) by done.
  case_decide; [done|].
  case_decide as Hw.
  - subst s. apply lookup_singleton_eq.
  - by apply lookup_singleton_ne.
Qed.

Lemma required_not_optional s : s ∈ required_keys -> s ∉ optional_keys.
Proof.
  revert s. apply Forall_forall. refine (bool_decide_unpack _ _). by vm_compute.
Qed.

Lemma loadSpec_rejected (E : ebpf.Env CollectionSpec) (p : ebpf.Tracer CollectionSpec) s w :
  ebpf.rejects_nil E ->
  ebpf.Constants p !! s = Some Nil ->
  exists e, val (ebpf.loadSpec E p w) = Err e.
Proof.
  intros Hrej Hs. unfold ebpf.loadSpec. rewrite !val_bind. cbn [liftR val].
  destruct (ebpf.Load p w) as [ls [spec|e]]; cbn [snd]; [|by eexists].
  rewrite !val_bind.
  destruct (Hrej spec _ _ Hs) as [e ->]. by eexists.
Qed.

(** C4: in the table [Constants] returns, an optional key that the field
    offsets do not have is the all-ones 64-bit sentinel.  A required key
    they do not have is nil in the table, and [loadSpec] of the tracer then
    fails, given that [RewriteConstants] refuses a nil replacement (which is
    cilium/ebpf's part, see [rejects_nil]). *)
Theorem Constants_absent_keys p offsets :
  (forall s, s ∈ optional_keys -> Field offsets !! s = None ->
     Constants sizeof_HTTPRequestTrace p offsets !! s = Some (Uint64 0xFFFFFFFFFFFFFFFF))
  /\ (forall s, s ∈ required_keys -> Field offsets !! s = None ->
        Constants sizeof_HTTPRequestTrace p offsets !! s = Some Nil
        /\ forall (E : ebpf.Env CollectionSpec) id w,
             ebpf.rejects_nil E ->
             exists e,
               val (ebpf.loadSpec E
                      (goTracer SupportsContextPropagation sizeof_HTTPRequestTrace loader
                                id p offsets) w) = Err e).
Proof.
  split.
  - intros s Hs Habs. rewrite Constants_lookup, decide_True by done.
    unfold index. rewrite Habs. cbn [default]. by rewrite decide_True.
  - intros s Hs Habs.
    assert (Constants sizeof_HTTPRequestTrace p offsets !! s = Some Nil) as Hnil.
    { rewrite Constants_lookup, decide_False by by apply required_not_optional.
      rewrite decide_True by done. unfold index. by rewrite Habs. }
    split; [done|]. intros E id w Hrej. by apply (loadSpec_rejected E _ s).
Qed.

Lemma ops_override_set (E : ebpf.Env CollectionSpec) pt os w :
  IntegrityModeOverride w = true -> override (ebpf.ops E pt os w) = true.
Proof. intros Hw. destruct (ops_flag E pt os w) as [Ho|[Ho _]]; congruence. Qed.

(** C5: once the flag is set, and whatever the orchestrator has done since,
    [GoProbes] of any Go tracer has no entry under the three
    context-propagation symbols, and [Load] runs the loader of an artifact
    built without context propagation: [loadBpf_debug] with debug output,
    [loadBpf] without.  The kernel is not even asked. *)
Theorem override_removes_context_propagation (E : ebpf.Env CollectionSpec) pt os p w :
  IntegrityModeOverride w = true ->
  let w' := after w (ebpf.ops E pt os w) in
  (forall s, s ∈ context_propagation_symbols ->
     (GoProbes SupportsContextPropagation p w').2 !! s = None)
  /\ (Load SupportsContextPropagation loader p w').2
     = loader (if BpfDebug (cfg p) then loadBpf_debug else loadBpf)
  /\ NO_HEADER_PROPAGATION (if BpfDebug (cfg p) then loadBpf_debug else loadBpf) = true
  /\ supportsContextPropagation SupportsContextPropagation p w' = ([], false).
Proof.
  intros Hw w'.
  assert (supportsContextPropagation SupportsContextPropagation p w' = ([], false)) as Hs.
  { unfold supportsContextPropagation. subst w'.
    by rewrite override_after, ops_override_set. }
  split_and!; [|by unfold Load; rewrite Hs|by destruct (BpfDebug (cfg p))|done].
  intros s Hin. unfold GoProbes. rewrite Hs. cbn [snd].
  unfold context_propagation_symbols in Hin.
  repeat (apply elem_of_cons in Hin as [->|Hin]); [by vm_compute..|].
  by apply elem_of_nil in Hin.
Qed.

End gotracer_facts.

Section gotracer_samples.
Import common goexec gotracer samples.

Example Constants_sample :
  Constants 320 gocfg offsets_all_required !! "cc_next_stream_id_pos"
    = Some (Uint64 0xFFFFFFFFFFFFFFFF)
  /\ Constants 320 gocfg offsets_all_required !! "framer_w_pos" = Some (Uint64 72)
  /\ Constants 320 gocfg offsets_all_required !! "url_ptr_pos" = Some (Uint64 16)
  /\ Constants 320 gocfg offsets_no_url !! "url_ptr_pos" = Some Nil
  /\ Constants 320 gocfg offsets_all_required !! "wakeup_data_bytes" = Some (Uint32 3200).
Proof. by vm_compute. Qed.

Lemma strict_rejects_nil : ebpf.rejects_nil strict.
Proof.
  intros spec constants s Hs. cbn. rewrite decide_True; [by eexists|].
  apply list_elem_of_fmap. exists (s, Nil). split; [done|]. by apply elem_of_map_to_list.
Qed.

Lemma Constants_absent_keys_sample :
  ("cc_next_stream_id_pos" ∈ optional_keys
   /\ Field offsets_no_url !! "cc_next_stream_id_pos" = None
   /\ Constants 320 gocfg offsets_no_url !! "cc_next_stream_id_pos"
      = Some (Uint64 0xFFFFFFFFFFFFFFFF))
  /\ ("url_ptr_pos" ∈ required_keys
      /\ Field offsets_no_url !! "url_ptr_pos" = None
      /\ Constants 320 gocfg offsets_no_url !! "url_ptr_pos" = Some Nil
      /\ exists e,
           val (ebpf.loadSpec strict (goTracer kernel_allows 320 sample_loader 1 gocfg offsets_no_url)
                  start) = Err e).
Proof.
  destruct (Constants_absent_keys kernel_allows 320 sample_loader gocfg offsets_no_url) as [Hopt Hreq].
  assert ("cc_next_stream_id_pos" ∈ optional_keys) as Ho by (apply elem_of_cons; by left).
  assert ("url_ptr_pos" ∈ required_keys) as Hr by (apply elem_of_cons; by left).
  split.
  - split_and!; [done | reflexivity | by apply Hopt].
  - destruct (Hreq _ Hr eq_refl) as [Hnil Hload].
    split_and!; [done | reflexivity | done | apply Hload, strict_rejects_nil].
Defined.

Example loadSpec_required_sample :
  val (ebpf.loadSpec strict (goTracer kernel_allows 320 sample_loader 1 gocfg offsets_no_url) start)
    = Err "rewriting BPF constants definition: marshaling constant replacement: nil value"
  /\ val (ebpf.loadSpec strict (goTracer kernel_allows 320 sample_loader 1 gocfg offsets_all_required)
            start) = Ok tt.
Proof. by vm_compute. Qed.

Lemma override_removes_context_propagation_sample :
  IntegrityModeOverride (after start (ebpf.loadTracers no_write_helper pt0 start)) = true
  /\ let w' := after (after start (ebpf.loadTracers no_write_helper pt0 start))
                 (ebpf.ops no_write_helper pt0 [ebpf.OpNewExecutable "/bin/app" ie1]
                    (after start (ebpf.loadTracers no_write_helper pt0 start))) in
     (forall s, s ∈ context_propagation_symbols ->
        (GoProbes kernel_allows gocfg w').2 !! s = None)
     /\ (Load kernel_allows sample_loader gocfg w').2
        = sample_loader (if BpfDebug (cfg gocfg) then loadBpf_debug else loadBpf)
     /\ NO_HEADER_PROPAGATION (if BpfDebug (cfg gocfg) then loadBpf_debug else loadBpf) = true
     /\ supportsContextPropagation kernel_allows gocfg w' = ([], false).
Proof.
  split; [reflexivity|].
  apply (override_removes_context_propagation kernel_allows sample_loader no_write_helper pt0
           [ebpf.OpNewExecutable "/bin/app" ie1] gocfg
           (after start (ebpf.loadTracers no_write_helper pt0 start))).
  reflexivity.
Defined.

(** Without the flag, on a kernel that allows it, the programs are there. *)
Example GoProbes_with_context_propagation :
  (GoProbes kernel_allows gocfg start).2 !! "net/http.Header.writeSubset"
    = Some (start_only UprobeWriteSubset)
  /\ (Load kernel_allows sample_loader gocfg start).2 = sample_loader loadBpf_tp
  /\ (GoProbes kernel_allows gocfg start).2 !! "net/http.(*conn).serve"
    = Some (start_end UprobeConnServe UprobeConnServeRet).
Proof. by vm_compute. Qed.

End gotracer_samples.

(** ** More on the Go tracer: [readString], [Constants], [GoProbes], [Load] *)
Section gotracer_more.
Import common goexec gotracer.
Context (SupportsContextPropagation : R bool) (sizeof_HTTPRequestTrace : Z).
Context {CollectionSpec : Type} (loader : Loader -> result CollectionSpec).

Lemma readString_loop_before_nul data :
  forall pre bytes,
    length bytes = length data ->
    readString_loop (length pre) data (pre ++ bytes) = pre ++ map byte (before_nul data).
Proof.
  induction data as [|v data IH]; intros pre bytes Hlen; cbn [readString_loop before_nul].
  - destruct bytes; [done | discriminate].
  - destruct bytes as [|b bytes]; [discriminate|]. injection Hlen as Hlen.
    case_decide.
    + by rewrite take_app_length, app_nil_r.
    + replace (<[length pre := byte v]> (pre ++ b :: bytes))
        with ((pre ++ [byte v]) ++ bytes).
      * replace (S (length pre)) with (length (pre ++ [byte v]))
          by (rewrite length_app; cbn; lia).
        rewrite IH by done. by rewrite <- app_assoc.
      * rewrite <- (Nat.add_0_r (length pre)), insert_app_r. cbn. by rewrite <- app_assoc.
Qed.

Lemma string_of_bytes_length bytes : String.length (string_of_bytes bytes) = length bytes.
Proof. unfold string_of_bytes. induction bytes; cbn; congruence. Qed.

Lemma before_nul_length data : (length (before_nul data) <= length data)%nat.
Proof. induction data; cbn; [lia|]. case_decide; cbn; lia. Qed.

Lemma readString_eq data : readString data = string_of_bytes (map byte (before_nul data)).
Proof.
  unfold readString. f_equal.
  apply (readString_loop_before_nul data [] (replicate (length data) 0)).
  apply length_replicate.
Qed.

Lemma before_nul_nonzero data : Forall (fun v => v <> 0) (before_nul data).
Proof. induction data; cbn; [done|]. case_decide; by constructor. Qed.

Lemma before_nul_Forall (P : Z -> Prop) data : Forall P data -> Forall P (before_nul data).
Proof. induction 1; cbn; [done|]. case_decide; by constructor. Qed.

(** X1: [readString] returns the bytes of [data] before its first zero, or
    all of them when there is none, each converted by [byte]; the string is
    never longer than [data], and for [int8] data it holds no zero
    character. *)
Theorem readString_before_nul data :
  readString data = string_of_bytes (map byte (before_nul data))
  /\ (String.length (readString data) <= length data)%nat
  /\ (Forall (fun v => -128 <= v < 128) data ->
      Ascii.zero ∉ String.list_ascii_of_string (readString data)).
Proof.
  split_and!; [apply readString_eq | |].
  - rewrite readString_eq, string_of_bytes_length, length_map. apply before_nul_length.
  - intros Hr. rewrite readString_eq. unfold string_of_bytes.
    rewrite String.list_ascii_of_string_of_list_ascii.
    intros (b & Hb & (v & -> & Hv)%list_elem_of_fmap)%list_elem_of_fmap.
    pose proof (before_nul_nonzero data) as Hnz.
    pose proof (before_nul_Forall _ data Hr) as Hrange.
    rewrite Forall_forall in Hnz, Hrange.
    specialize (Hnz v Hv). specialize (Hrange v Hv). cbn beta in Hrange.
    assert (0 < byte v < 256) as Hbyte.
    { unfold byte. pose proof (Z.mod_pos_bound v 256 ltac:(lia)) as Hm.
      split; [|lia]. destruct (decide (v mod 256 = 0)) as [Hz|]; [|lia].
      apply Z.mod_divide in Hz; [|lia]. destruct Hz as [k Hk]. lia. }
    assert (Ascii.N_of_ascii (Ascii.ascii_of_N (Z.to_N (byte v))) = Z.to_N (byte v)) as Hemb
      by (apply Ascii.N_ascii_embedding; lia).
    rewrite <- Hb in Hemb. cbn in Hemb. lia.
Qed.

Lemma byte_int8_of_ascii a : byte (int8_of_ascii a) = Z.of_N (Ascii.N_of_ascii a).
Proof.
  unfold byte, int8_of_ascii. pose proof (Ascii.N_ascii_bounded a) as Hb.
  case_decide.
  - apply Z.mod_small. lia.
  - replace (Z.of_N (Ascii.N_of_ascii a) - 256) with (Z.of_N (Ascii.N_of_ascii a) + (-1) * 256)
      by lia.
    rewrite Z.mod_add by lia. apply Z.mod_small. lia.
Qed.

Lemma int8_of_ascii_zero a : int8_of_ascii a = 0 -> a = Ascii.zero.
Proof.
  unfold int8_of_ascii. pose proof (Ascii.N_ascii_bounded a) as Hb.
  case_decide; intros Hz; [|lia].
  assert (Ascii.N_of_ascii a = 0%N) as Hn by lia.
  rewrite <- (Ascii.ascii_N_embedding a), Hn. reflexivity.
Qed.

Lemma string_of_bytes_chars s : string_of_bytes (map byte (chars s)) = s.
Proof.
  unfold string_of_bytes, chars.
  rewrite <- (String.string_of_list_ascii_of_string s) at 2. f_equal.
  induction (String.list_ascii_of_string s) as [|a l IH]; [done|].
  cbn [map]. rewrite IH, byte_int8_of_ascii, N2Z.id, Ascii.ascii_N_embedding. done.
Qed.

Lemma before_nul_chars s rest :
  Ascii.zero ∉ String.list_ascii_of_string s ->
  before_nul (chars s ++ 0 :: rest) = chars s /\ before_nul (chars s) = chars s.
Proof.
  unfold chars. induction (String.list_ascii_of_string s) as [|a l IH]; intros Hz.
  - cbn. by rewrite decide_True.
  - apply not_elem_of_cons in Hz as [Ha Hl]. cbn [map app before_nul].
    rewrite !decide_False by (intros ?%int8_of_ascii_zero; congruence).
    destruct (IH Hl) as [-> ->]. done.
Qed.

(** X2: a string without a zero character that sits at the start of [data],
    followed by a zero and anything, or filling [data] to its end, is what
    [readString] returns. *)
Theorem readString_chars s rest :
  Ascii.zero ∉ String.list_ascii_of_string s ->
  readString (chars s ++ 0 :: rest) = s /\ readString (chars s) = s.
Proof.
  intros Hz. destruct (before_nul_chars s rest Hz) as [H1 H2].
  by rewrite !readString_eq, H1, H2, string_of_bytes_chars.
Qed.

Lemma wakeup_not_key : "wakeup_data_bytes" ∉ required_keys ++ optional_keys.
Proof. refine (bool_decide_unpack _ _). by vm_compute. Qed.

(** X3: whatever the offsets, the table of [Constants] has exactly the keys
    [wakeup_data_bytes], the required and the optional ones (other keys of
    the offsets do not enter it); [wakeup_data_bytes] is the 32-bit product
    and cannot be set by the offsets; and no optional key is nil. *)
Theorem Constants_keys p offsets :
  dom (Constants sizeof_HTTPRequestTrace p offsets)
    = list_to_set ("wakeup_data_bytes" :: required_keys ++ optional_keys)
  /\ (exists n, Constants sizeof_HTTPRequestTrace p offsets !! "wakeup_data_bytes"
                  = Some (Uint32 n)
                /\ 0 <= n < 2 ^ 32
                /\ n = (WakeupLen (cfg p) * sizeof_HTTPRequestTrace) mod 2 ^ 32)
  /\ (forall s, s ∈ optional_keys ->
        exists v, Constants sizeof_HTTPRequestTrace p offsets !! s = Some v /\ v <> Nil).
Proof.
  split_and!.
  - apply set_eq. intros s.
    rewrite elem_of_dom, Constants_lookup, elem_of_list_to_set, elem_of_cons, elem_of_app.
    repeat case_decide; split; intros Hs; eauto; try (by destruct Hs); tauto.
  - exists (uint32 (uint32 (WakeupLen (cfg p)) * uint32 sizeof_HTTPRequestTrace)).
    split; [|split].
    + rewrite Constants_lookup.
      rewrite (decide_False (P := _ ∈ optional_keys))
        by (intros Hin; apply wakeup_not_key, elem_of_app; by right).
      rewrite (decide_False (P := _ ∈ required_keys))
        by (intros Hin; apply wakeup_not_key, elem_of_app; by left).
      by rewrite decide_True.
    + unfold uint32. apply Z.mod_pos_bound. reflexivity.
    + unfold uint32. symmetry. apply Zmult_mod.
  - intros s Hs. rewrite Constants_lookup, decide_True by done.
    eexists. split; [done|]. by case_decide.
Qed.

(** X4: a required or optional key that the offsets give with a value other
    than nil has that value in the table of [Constants]. *)
Theorem Constants_keeps_offsets p offsets s v :
  s ∈ required_keys ++ optional_keys ->
  Field offsets !! s = Some v ->
  v <> Nil ->
  Constants sizeof_HTTPRequestTrace p offsets !! s = Some v.
Proof.
  intros Hs Hf Hv. rewrite Constants_lookup. unfold index. rewrite Hf. cbn [default].
  apply elem_of_app in Hs.
  case_decide; [by rewrite decide_False|].
  case_decide; [done | tauto].
Qed.

(** X5: the symbols [GoProbes] registers outside the three
    context-propagation ones, and their programs, are the same whatever the
    flag, the kernel and the configuration: 28 entries.  The three are
    registered exactly when [supportsContextPropagation] holds. *)
Theorem GoProbes_base_symbols scp scp' p p' w w' :
  (forall s, s ∉ context_propagation_symbols ->
     (GoProbes scp p w).2 !! s = (GoProbes scp' p' w').2 !! s)
  /\ size (GoProbes scp p w).2
     = (if (supportsContextPropagation scp p w).2 then 31 else 28)%nat
  /\ (forall s, s ∈ context_propagation_symbols ->
        is_Some ((GoProbes scp p w).2 !! s)
        <-> (supportsContextPropagation scp p w).2 = true).
Proof.
  split_and!.
  - intros s Hs. unfold context_propagation_symbols in Hs.
    apply not_elem_of_cons in Hs as [H1 Hs]. apply not_elem_of_cons in Hs as [H2 Hs].
    apply not_elem_of_cons in Hs as [H3 _].
    unfold GoProbes.
    destruct (supportsContextPropagation scp p w) as [ls []],
      (supportsContextPropagation scp' p' w') as [ls' []];
      cbv zeta; cbn [snd]; by rewrite ?lookup_insert_ne by done.
  - unfold GoProbes. destruct (supportsContextPropagation scp p w) as [ls []]; by vm_compute.
  - intros s Hs. unfold context_propagation_symbols in Hs. unfold GoProbes.
    destruct (supportsContextPropagation scp p w) as [ls []];
      repeat (apply elem_of_cons in Hs as [->|Hs]);
      try (by apply elem_of_nil in Hs);
      vm_compute; split; intros Hx; try done; try (by destruct Hx); by eexists.
Qed.

(** X6: [Load] runs the loader of the artifact whose build flags match the
    tracer: built with -DBPF_DEBUG exactly when [BpfDebug] is set, and with
    -DNO_HEADER_PROPAGATION exactly when context propagation is not
    supported.  What it logs is what the kernel check logged, followed by one
    line of its own exactly when context propagation is not supported; with
    the flag set the check is not made and that line is the only one, and
    with the flag unset the check is made in the world of the call. *)
Theorem Load_artifact p w l :
  BPF_DEBUG l = BpfDebug (cfg p) ->
  NO_HEADER_PROPAGATION l
  = negb (supportsContextPropagation SupportsContextPropagation p w).2 ->
  (Load SupportsContextPropagation loader p w).2 = loader l
  /\ (Load SupportsContextPropagation loader p w).1
     = (supportsContextPropagation SupportsContextPropagation p w).1
       ++ (if (supportsContextPropagation SupportsContextPropagation p w).2
           then [] else [lockdown_line])
  /\ (IntegrityModeOverride w = true ->
      (Load SupportsContextPropagation loader p w).1 = [lockdown_line])
  /\ (IntegrityModeOverride w = false ->
      supportsContextPropagation SupportsContextPropagation p w
      = SupportsContextPropagation w).
Proof.
  intros Hd Hn. split_and!.
  - unfold Load.
    destruct (supportsContextPropagation SupportsContextPropagation p w) as [ls []],
      (BpfDebug (cfg p)), l; cbn in *; done.
  - unfold Load.
    destruct (supportsContextPropagation SupportsContextPropagation p w) as [ls []];
      cbn; by rewrite ?app_nil_r.
  - intros Hw. unfold Load, supportsContextPropagation. by rewrite Hw.
  - intros Hw. unfold supportsContextPropagation. by rewrite Hw.
Qed.

End gotracer_more.

Section gotracer_more_samples.
Import common goexec gotracer samples.

Example readString_sample :
  readString [104; 105; 0; 120; 121] = "hi"
  /\ readString [104; 105] = "hi"
  /\ readString [0; 104] = ""
  /\ readString [] = ""
  /\ readString [-61; -87; 0] = string_of_bytes [195; 169].
Proof. by vm_compute. Qed.

Lemma readString_chars_sample :
  (Ascii.zero ∉ String.list_ascii_of_string "uprobe_ServeHTTP")
  /\ readString (chars "uprobe_ServeHTTP" ++ 0 :: [37; 115])
     = "uprobe_ServeHTTP"
  /\ readString (chars "uprobe_ServeHTTP") = "uprobe_ServeHTTP".
Proof.
  assert (Ascii.zero ∉ String.list_ascii_of_string "uprobe_ServeHTTP") as Hz.
  { refine (bool_decide_unpack _ _). by vm_compute. }
  split; [exact Hz|]. apply (readString_chars "uprobe_ServeHTTP" [37; 115] Hz).
Defined.

Lemma Constants_keeps_offsets_sample :
  "framer_w_pos" ∈ required_keys ++ optional_keys
  /\ Field offsets_all_required !! "framer_w_pos" = Some (Uint64 72)
  /\ Uint64 72 <> Nil
  /\ Constants 320 gocfg offsets_all_required !! "framer_w_pos" = Some (Uint64 72).
Proof.
  assert ("framer_w_pos" ∈ required_keys ++ optional_keys) as Hin.
  { refine (bool_decide_unpack _ _). by vm_compute. }
  assert (Uint64 72 <> Nil) as Hne by discriminate.
  split_and!; [exact Hin | reflexivity | exact Hne |].
  apply (Constants_keeps_offsets 320 gocfg offsets_all_required "framer_w_pos" (Uint64 72) Hin);
    [reflexivity | exact Hne].
Defined.

Lemma Load_artifact_sample :
  BPF_DEBUG loadBpf = BpfDebug (cfg gocfg)
  /\ NO_HEADER_PROPAGATION loadBpf
     = negb (supportsContextPropagation kernel_lockdown gocfg start).2
  /\ (Load kernel_lockdown sample_loader gocfg start).2 = sample_loader loadBpf
  /\ (Load kernel_lockdown sample_loader gocfg start).1
     = [(LevelDebug, "kernel lockdown mode: integrity"); lockdown_line].
Proof.
  split; [reflexivity|]. split; [reflexivity|].
  destruct (Load_artifact kernel_lockdown sample_loader gocfg start loadBpf eq_refl eq_refl)
    as (Hl & Hlogs & _).
  split; [exact Hl | exact Hlogs].
Defined.

Example Load_sample :
  Load kernel_allows sample_loader gocfg start = ([], sample_loader loadBpf_tp)
  /\ Load kernel_lockdown sample_loader gocfg
       {| IntegrityModeOverride := true; trace := [] |}
     = ([lockdown_line], sample_loader loadBpf).
Proof. split; reflexivity. Qed.

End gotracer_more_samples.

(** ** More on the process tracer: what the operations attach, in which
       order, and what they leave behind *)
Section ebpf_more.
Import common goexec ebpf.
Context {CollectionSpec : Type} (E : Env CollectionSpec).
Implicit Types (pt : ProcessTracer CollectionSpec) (w : World).
Implicit Types (ps : list (Tracer CollectionSpec)) (i : instrumenter).

Ltac run :=
  repeat (rewrite ?new_bind, ?val_bind, ?override_bind, ?override_after, ?after_bind;
          cbn [emit get setIntegrityModeOverride mret M_ret new val override]).

Lemma attached_handles_app es1 es2 :
  attached_handles (es1 ++ es2) = attached_handles es1 ++ attached_handles es2.
Proof. unfold attached_handles. by rewrite omap_app, join_app. Qed.

Lemma attached_libs_app es1 es2 :
  attached_libs (es1 ++ es2) = attached_libs es1 ++ attached_libs es2.
Proof. unfold attached_libs. by rewrite omap_app, join_app. Qed.

Lemma stages_app es1 es2 : stages (es1 ++ es2) = stages es1 ++ stages es2.
Proof. apply omap_app. Qed.

Lemma refusals_app es1 es2 : refusals (es1 ++ es2) = refusals es1 ++ refusals es2.
Proof. apply omap_app. Qed.

(** The run of [m ≫= f] is decided by what [f] does at the value of [m]. *)
Lemma bind_ext_val {A B} (m : M A) (f g : A -> M B) w :
  f (val (m w)) (after w (m w)) = g (val (m w)) (after w (m w)) ->
  (m ≫= f) w = (m ≫= g) w.
Proof. intros Hfg. unfold mbind, M_bind. cbv zeta. by rewrite Hfg. Qed.

Lemma Forall_new_bind {A B} (P : Event -> Prop) (m : M A) (f : A -> M B) w :
  Forall P (new (m w)) ->
  (forall a w', Forall P (new (f a w'))) ->
  Forall P (new ((m ≫= f) w)).
Proof. intros Hm Hf. rewrite new_bind. apply Forall_app. split; [done | apply Hf]. Qed.

(** What one attachment call leaves: the instrumenter with the handles and
    modules appended, one event. *)
Lemma attach_new kind pid i p w :
  exists hs ls res,
    new (attach E kind pid i p w) = [CallAttach kind (tid p) hs ls res]
    /\ val (attach E kind pid i p w)
       = ({| offsets := offsets i; exe := exe i; closables := closables i ++ hs;
             modules := modules i ∪ list_to_set ls |}, res).
Proof. by eexists _, _, _. Qed.

Lemma grown_refl i : grown i i [].
Proof.
  unfold grown. cbn. rewrite app_nil_r. split_and!; try done.
  by rewrite (right_id_L ∅ (∪)).

Qed.

Lemma grown_trans i i1 i2 es1 es2 :
  grown i i1 es1 -> grown i1 i2 es2 -> grown i i2 (es1 ++ es2).
Proof.
  intros (Hc1 & Hm1 & Ho1 & He1) (Hc2 & Hm2 & Ho2 & He2). unfold grown.
  rewrite attached_handles_app, attached_libs_app, Hc2, Hc1, Hm2, Hm1, Ho2, He2.
  split_and!; try done; [by rewrite app_assoc|].
  rewrite list_to_set_app_L. apply set_eq. intros x. rewrite !elem_of_union. tauto.
Qed.

Lemma grown_app_l i i' es0 es :
  attached_handles es0 = [] -> attached_libs es0 = [] -> grown i i' es -> grown i i' (es0 ++ es).
Proof.
  intros H0 H0' (Hc & Hm & Ho & He). unfold grown.
  by rewrite attached_handles_app, attached_libs_app, H0, H0'.
Qed.

Lemma grown_app_r i i' es es0 :
  attached_handles es0 = [] -> attached_libs es0 = [] -> grown i i' es -> grown i i' (es ++ es0).
Proof.
  intros H0 H0' (Hc & Hm & Ho & He). unfold grown.
  by rewrite attached_handles_app, attached_libs_app, H0, H0', !app_nil_r.
Qed.

Lemma attach_grown kind pid i p w :
  grown i (val (attach E kind pid i p w)).1 (new (attach E kind pid i p w)).
Proof.
  destruct (attach_new kind pid i p w) as (hs & ls & res & -> & ->).
  unfold grown. cbn. rewrite !app_nil_r. done.
Qed.

Lemma NewExecutable_loop_grown ie i ps w :
  grown i (val (NewExecutable_loop E ie i ps w)).1 (new (NewExecutable_loop E ie i ps w)).
Proof.
  revert i w. induction ps as [|p ps IH]; intros i w; [apply grown_refl|].
  cbn [NewExecutable_loop]. unfold goprobes, uprobes. run.
  apply grown_app_l; [done..|].
  set (w1 := after w _).
  pose proof (attach_grown GoProbe None i p w1) as H1.
  destruct (attach E GoProbe None i p w1) as [[i1 [e|]] o1 n1]; cbn [val new fst] in *; run.
  { unfold printVerifierErrorInfo. run. by apply grown_app_r. }
  set (w2 := after w1 _).
  pose proof (attach_grown UProbe (Some (Pid (ie_FileInfo ie))) i1 p w2) as H2.
  destruct (attach E UProbe (Some (Pid (ie_FileInfo ie))) i1 p w2) as [[i2 [e|]] o2 n2];
    cbn [val new fst] in *; run.
  { unfold printVerifierErrorInfo. run. apply (grown_trans _ i1); [done|]. by apply grown_app_r. }
  apply (grown_trans _ i1); [done|]. apply (grown_trans _ i2); [done|]. apply IH.
Qed.

Lemma NewExecutableInstance_loop_grown pid i ps w :
  grown i (val (NewExecutableInstance_loop E pid i ps w)).1
        (new (NewExecutableInstance_loop E pid i ps w)).
Proof.
  revert i w. induction ps as [|p ps IH]; intros i w; [apply grown_refl|].
  cbn [NewExecutableInstance_loop]. unfold uprobes. run.
  pose proof (attach_grown UProbe (Some pid) i p w) as H1.
  destruct (attach E UProbe (Some pid) i p w) as [[i1 [e|]] o1 n1]; cbn [val new fst] in *; run.
  { unfold printVerifierErrorInfo. run. by apply grown_app_r. }
  apply (grown_trans _ i1); [done | apply IH].
Qed.

(** [NewExecutable] in terms of its loop. *)
Lemma NewExecutable_loop_run exe_ ie pt w :
  let i0 := {| offsets := Some (ie_Offsets ie); exe := Some exe_;
               closables := []; modules := ∅ |} in
  let l := NewExecutable_loop E ie i0 (Programs pt) w in
  let r := NewExecutable E exe_ ie pt w in
  new r = new l /\ (val r).2 = (val l).2
  /\ ((val l).2 = None ->
      (val r).1 = with_Instrumentables pt
                    (<[Ino (ie_FileInfo ie) := (val l).1]> (Instrumentables pt))).
Proof.
  intros i0 l r. subst r l. unfold NewExecutable. fold i0. run.
  destruct (val (NewExecutable_loop E ie i0 (Programs pt) w)) as [i' [e|]];
    cbn; rewrite app_nil_r; done.
Qed.

(** X7: after a [NewExecutable] that returns no error, an [UnlinkExecutable]
    for the same inode that returns has called [Close] on exactly the handles
    the call attached, in the order they were attached, has signalled the
    modules it recorded, and returns the map without the inode: as it was
    before, when the inode was not in it.  It returns whenever the logger is
    set; on the nil logger it panics at the first [Close] that fails, with
    the handles after that one left open. *)
Theorem NewExecutable_then_UnlinkExecutable exe_ ie pt w w' :
  (val (NewExecutable E exe_ ie pt w)).2 = None ->
  let r := NewExecutable E exe_ ie pt w in
  let u := UnlinkExecutable E (ie_FileInfo ie) (val r).1 w' in
  match val u with
  | Returns pt' =>
      closed (new u) = attached_handles (new r)
      /\ (exists inos, inos ≡ₚ elements (list_to_set (attached_libs (new r)) : gset N)
                       /\ unlinked (new u) = signals (Programs pt) inos
                       /\ (log pt = None ->
                           new u = map (fun c => CallClose c None) (attached_handles (new r))
                                   ++ signal_events (Programs pt) inos))
      /\ Instrumentables pt' = delete (Ino (ie_FileInfo ie)) (Instrumentables pt)
      /\ (Instrumentables pt !! Ino (ie_FileInfo ie) = None -> pt' = pt)
  | Panics _ =>
      log pt = None /\ stopped_at_failure (attached_handles (new r)) (new u)
  end
  /\ (is_Some (log pt) -> exists pt', val u = Returns pt').
Proof.
  intros Hok r u. subst u r.
  destruct (NewExecutable_loop_run exe_ ie pt w) as (Hn & Hv & Hpt).
  rewrite Hv in Hok. specialize (Hpt Hok). rewrite Hn, Hpt.
  set (i0 := {| offsets := Some (ie_Offsets ie); exe := Some exe_;
                closables := []; modules := ∅ |}) in *.
  destruct (NewExecutable_loop_grown ie i0 (Programs pt) w) as (Hc & Hm & _).
  set (l := NewExecutable_loop E ie i0 (Programs pt) w) in *.
  set (pt' := with_Instrumentables pt _).
  assert (Instrumentables pt' !! Ino (ie_FileInfo ie) = Some (val l).1) as Hi
    by apply lookup_insert_eq.
  assert (modules (val l).1 = list_to_set (attached_libs (new l))) as Hm'.
  { rewrite Hm. cbn. by rewrite (left_id_L ∅ (∪)). }
  split; [|apply (UnlinkExecutable_returns E (ie_FileInfo ie) pt' w')].
  destruct (UnlinkExecutable_present E (ie_FileInfo ie) pt' w' _ Hi) as (_ & _ & Hu).
  destruct (val (UnlinkExecutable E (ie_FileInfo ie) pt' w')) as [pt''|pn].
  - destruct Hu as (-> & Hcl & inos & Hp & Hu & Hnew). split_and!.
    + rewrite Hcl. exact Hc.
    + exists inos. split; [by rewrite <- Hm'|]. split; [exact Hu|].
      intros Hl. rewrite (Hnew Hl). f_equal. f_equal. exact Hc.
    + cbn. apply delete_insert_eq.
    + intros Habs. subst pt'. unfold with_Instrumentables.
      cbn [log Programs PinPath SystemWide Type_ Instrumentables].
      rewrite delete_insert_eq, delete_id by done. by destruct pt.
  - destruct Hu as [Hl Hs]. split; [exact Hl|]. rewrite Hc in Hs. exact Hs.
Qed.

(** One attachment call with its run taken apart. *)
Lemma attach_cases kind pid i p w :
  exists hs ls res i',
    attach E kind pid i p w
    = {| val := (i', res); override := IntegrityModeOverride w;
         new := [CallAttach kind (tid p) hs ls res] |}.
Proof. by eexists _, _, _, _. Qed.

Lemma refusal_last_app es0 res es :
  refusals es0 = [] -> refusal_last res es -> refusal_last res (es0 ++ es).
Proof.
  intros H0. destruct res as [e|]; cbn.
  - intros (es' & kind & p & hs & ls & -> & Hr). exists (es0 ++ es'), kind, p, hs, ls.
    split; [by rewrite app_assoc | by rewrite refusals_app, H0, Hr].
  - intros Hr. by rewrite refusals_app, H0, Hr.
Qed.

Lemma NewExecutable_loop_refusal ie i ps w :
  refusal_last (val (NewExecutable_loop E ie i ps w)).2 (new (NewExecutable_loop E ie i ps w)).
Proof.
  revert i w. induction ps as [|p ps IH]; intros i w; [done|].
  cbn [NewExecutable_loop]. unfold goprobes, uprobes. run.
  apply refusal_last_app; [done|].
  set (w1 := after w _).
  destruct (attach_cases GoProbe None i p w1) as (hs1 & ls1 & [e|] & i1 & ->);
    cbn [val new fst snd]; run.
  { unfold printVerifierErrorInfo. run. cbn. by exists [], GoProbe, (tid p), hs1, ls1. }
  set (w2 := after w1 _).
  destruct (attach_cases UProbe (Some (Pid (ie_FileInfo ie))) i1 p w2)
    as (hs2 & ls2 & [e|] & i2 & ->); cbn [val new fst snd]; run.
  { unfold printVerifierErrorInfo. run. cbn.
    by exists [CallAttach GoProbe (tid p) hs1 ls1 None], UProbe, (tid p), hs2, ls2. }
  apply (refusal_last_app [_]); [done|]. apply (refusal_last_app [_]); [done|]. apply IH.
Qed.

Lemma NewExecutableInstance_loop_stages pid i ps w :
  let r := NewExecutableInstance_loop E pid i ps w in
  stages (new r) `prefix_of` map (fun p => (StageAttach UProbe, tid p)) ps
  /\ ((val r).2 = None -> stages (new r) = map (fun p => (StageAttach UProbe, tid p)) ps)
  /\ refusal_last (val r).2 (new r).
Proof.
  revert i w. induction ps as [|p ps IH]; intros i w; [by split_and!; [exists []| |]|].
  cbn zeta. cbn [NewExecutableInstance_loop]. unfold uprobes. run.
  destruct (attach_cases UProbe (Some pid) i p w) as (hs & ls & [e|] & i1 & ->);
    cbn [val new fst snd]; run.
  { unfold printVerifierErrorInfo. run. cbn. split_and!; [|done|].
    - apply prefix_cons, prefix_nil.
    - by exists [], UProbe, (tid p), hs, ls. }
  set (w1 := after w _).
  destruct (IH i1 w1) as (Hp & Heq & Hr).
  rewrite stages_app. cbn [stages omap map app].
  split_and!.
  - by apply prefix_cons.
  - intros Hok. by rewrite (Heq Hok).
  - apply (refusal_last_app [_]); [done | exact Hr].
Qed.

(** X8: [NewExecutableInstance] for an inode of the map returns, having
    attached uprobes only: one call per program in order, all of them when it
    returns no error, and up to the first refused one, whose error it
    returns, otherwise.  Either way the entry of the inode holds afterward
    the closables it held followed by every handle the call attached.  A
    later [UnlinkExecutable] closes them in that order: all of them when it
    returns, which it does whenever the logger is set. *)
Theorem NewExecutableInstance_keeps_entry ie pt w w' i :
  Instrumentables pt !! Ino (ie_FileInfo ie) = Some i ->
  let r := NewExecutableInstance E ie pt w in
  exists pt' err i',
    val r = Returns (pt', err)
    /\ Instrumentables pt' !! Ino (ie_FileInfo ie) = Some i'
    /\ closables i' = closables i ++ attached_handles (new r)
    /\ modules i' = modules i ∪ list_to_set (attached_libs (new r))
    /\ stages (new r) `prefix_of` map (fun p => (StageAttach UProbe, tid p)) (Programs pt)
    /\ (err = None ->
        stages (new r) = map (fun p => (StageAttach UProbe, tid p)) (Programs pt))
    /\ refusal_last err (new r)
    /\ let u := UnlinkExecutable E (ie_FileInfo ie) pt' w' in
       closed (new u) `prefix_of` closables i ++ attached_handles (new r)
       /\ (forall pt'', val u = Returns pt'' ->
             closed (new u) = closables i ++ attached_handles (new r))
       /\ (is_Some (log pt) -> exists pt'', val u = Returns pt'')
       /\ (forall pn, val u = Panics pn ->
             log pt = None
             /\ stopped_at_failure (closables i ++ attached_handles (new r)) (new u)).
Proof.
  intros Hi r. subst r. unfold NewExecutableInstance. rewrite Hi. run.
  set (l := NewExecutableInstance_loop E (Pid (ie_FileInfo ie)) i (Programs pt) w).
  pose proof (NewExecutableInstance_loop_grown (Pid (ie_FileInfo ie)) i (Programs pt) w)
    as (Hc & Hm & _).
  pose proof (NewExecutableInstance_loop_stages (Pid (ie_FileInfo ie)) i (Programs pt) w)
    as (Hst & Hfull & Hlast).
  fold l in Hc, Hm, Hst, Hfull, Hlast.
  destruct (val l) as [i' err] eqn:Hl. cbn [fst snd] in *. cbn [val new]. rewrite app_nil_r.
  set (pt' := with_Instrumentables pt _).
  assert (Instrumentables pt' !! Ino (ie_FileInfo ie) = Some i') as Hi'
    by apply lookup_insert_eq.
  exists pt', err, i'. do 7 (split; [done|]).
  cbv zeta. rewrite <- Hc.
  destruct (UnlinkExecutable_present E (ie_FileInfo ie) pt' w' _ Hi') as (_ & _ & Hu).
  split_and!; [| |apply (UnlinkExecutable_returns E (ie_FileInfo ie) pt' w')|].
  - destruct (val (UnlinkExecutable E (ie_FileInfo ie) pt' w')) as [pt''|pn].
    + by destruct Hu as (_ & -> & _).
    + destruct Hu as [_ Hs]. by apply stopped_at_failure_closed in Hs as (? & _).
  - intros pt'' Hr. rewrite Hr in Hu. by destruct Hu as (_ & ? & _).
  - intros pn Hr. by rewrite Hr in Hu.
Qed.

(** X9: when [NewExecutable] returns an error, it is the error of the last
    attachment call it made, no earlier call was refused, and the verifier
    information of that error was printed right after the call and before
    the return; when it returns none, no attachment was refused. *)
Theorem NewExecutable_refusal_is_last exe_ ie pt w :
  let r := NewExecutable E exe_ ie pt w in
  match (val r).2 with
  | Some e => exists es kind p hs ls,
      new r = es ++ [CallAttach kind p hs ls (Some e); PrintVerifierErrorInfo e]
      /\ refusals es = []
  | None => refusals (new r) = []
  end.
Proof.
  intros r. subst r. destruct (NewExecutable_loop_run exe_ ie pt w) as (-> & -> & _).
  apply NewExecutable_loop_refusal.
Qed.

(** The steps of [NewExecutable] on one program, and of [loadTracers] once
    the program is in the kernel. *)
Lemma NewExecutable_loop_stages ie i ps w :
  let r := NewExecutable_loop E ie i ps w in
  stages (new r) `prefix_of` (ps ≫= NewExecutable_steps)
  /\ ((val r).2 = None -> stages (new r) = ps ≫= NewExecutable_steps).
Proof.
  revert i w. induction ps as [|p ps IH]; intros i w; [by split; [exists []|]|].
  cbn zeta. cbn [NewExecutable_loop]. unfold goprobes, uprobes. run.
  rewrite bind_cons. unfold NewExecutable_steps at 1 3. rewrite stages_app. cbn [stages omap app].
  set (w1 := after w _).
  destruct (attach_cases GoProbe None i p w1) as (hs1 & ls1 & [e|] & i1 & ->);
    cbn [val new fst snd]; run.
  { unfold printVerifierErrorInfo. run. cbn. split; [|done].
    do 2 apply prefix_cons. apply prefix_nil. }
  set (w2 := after w1 _).
  destruct (attach_cases UProbe (Some (Pid (ie_FileInfo ie))) i1 p w2)
    as (hs2 & ls2 & [e|] & i2 & ->); cbn [val new fst snd]; run.
  { unfold printVerifierErrorInfo. run. cbn. split; [|done].
    do 3 apply prefix_cons. apply prefix_nil. }
  rewrite !stages_app. cbn [stages omap app].
  set (w3 := after w2 _).
  destruct (IH i2 w3) as [Hp Heq].
  split.
  - by do 3 apply prefix_cons.
  - intros Hok. by rewrite (Heq Hok).
Qed.

(** X10: [NewExecutable] goes through the programs in order and for each
    registers the offsets, attaches the goprobes, then the uprobes.  When it
    returns no error it went through all of them and nothing was refused.
    When it returns an error, the refused attachment is the last step it
    took, right before the print of the error, and nothing was refused
    before: it stops at the first refusal. *)
Theorem NewExecutable_order exe_ ie pt w :
  let r := NewExecutable E exe_ ie pt w in
  stages (new r) `prefix_of` (Programs pt ≫= NewExecutable_steps)
  /\ match (val r).2 with
     | None =>
         stages (new r) = Programs pt ≫= NewExecutable_steps
         /\ refusals (new r) = []
     | Some e => exists es kind p hs ls,
         new r = es ++ [CallAttach kind p hs ls (Some e); PrintVerifierErrorInfo e]
         /\ refusals es = []
         /\ stages (new r) = stages es ++ [(StageAttach kind, p)]
     end.
Proof.
  intros r. subst r. destruct (NewExecutable_loop_run exe_ ie pt w) as (-> & -> & _).
  set (i0 := {| offsets := _ |}).
  destruct (NewExecutable_loop_stages ie i0 (Programs pt) w) as [Hp Hfull].
  pose proof (NewExecutable_loop_refusal ie i0 (Programs pt) w) as Hlast.
  split; [exact Hp|].
  destruct ((val (NewExecutable_loop E ie i0 (Programs pt) w)).2) as [e|].
  - destruct Hlast as (es & kind & p & hs & ls & Hn & Hr).
    exists es, kind, p, hs, ls. split_and!; [done..|].
    rewrite Hn, stages_app. reflexivity.
  - split; [by apply Hfull | exact Hlast].
Qed.

Lemma logs_load_event (ls : list (Level * string)) :
  Forall load_event (map (fun l => Log l.1 l.2) ls) /\ stages (map (fun l => Log l.1 l.2) ls) = [].
Proof. induction ls as [|l ls [IH1 IH2]]; [done|]. split; [by constructor | exact IH2]. Qed.

Lemma loadSpec_events p w :
  Forall load_event (new (loadSpec E p w)) /\ stages (new (loadSpec E p w)) = [].
Proof.
  unfold loadSpec. run. cbn [liftR new val].
  destruct (logs_load_event (Load p w).1) as [Hf Hs].
  rewrite !stages_app, Hs, !Forall_app.
  destruct (Load p w) as [ls [spec|e]]; cbn [snd fst] in *; run.
  - destruct (env_RewriteConstants E spec (Constants p)); run; cbn;
      split_and!; by repeat constructor.
  - cbn. split_and!; by repeat constructor.
Qed.

Lemma LoadAndAssign_cases p spec w :
  exists res,
    LoadAndAssign E p spec w
    = {| val := res; override := IntegrityModeOverride w;
         new := [CallLoadAndAssign (tid p) res] |}.
Proof. by eexists. Qed.

Lemma loadTracers_load_events p w :
  let r := loadTracers_load E p w in
  Forall load_event (new r)
  /\ stages (new r) = if val r is None then [(StageLoaded, tid p)] else [].
Proof.
  cbn zeta. unfold loadTracers_load. run.
  set (w1 := after w _).
  destruct (loadSpec_events p w1) as (Hf1 & Hs1).
  destruct (loadSpec E p w1) as [[spec|err] o1 n1]; cbn [val override new] in *; run.
  2:{ rewrite !stages_app, Hs1, !Forall_app. cbn. split_and!; by repeat constructor. }
  set (w2 := after w1 _).
  destruct (LoadAndAssign_cases p spec w2) as ([e|] & ->); cbn [val override new]; run.
  2:{ rewrite !stages_app, Hs1, !Forall_app. cbn. split_and!; by repeat constructor. }
  set (w3 := after w2 _).
  destruct (Contains e missing_helper); run.
  2:{ unfold printVerifierErrorInfo. run.
      rewrite !stages_app, Hs1, !Forall_app. cbn. split_and!; by repeat constructor. }
  set (w4 := after (after w3 _) _).
  destruct (loadSpec_events p w4) as (Hf4 & Hs4).
  destruct (loadSpec E p w4) as [[spec'|err'] o4 n4]; cbn [val override new] in *; run.
  2:{ unfold printVerifierErrorInfo. run.
      rewrite !stages_app, Hs1, Hs4, !Forall_app. cbn. split_and!; by repeat constructor. }
  set (w5 := after w4 _).
  destruct (LoadAndAssign_cases p spec' w5) as ([e'|] & ->); cbn [val override new]; run;
    unfold printVerifierErrorInfo; run;
    rewrite !stages_app, Hs1, Hs4, !Forall_app; cbn; split_and!; by repeat constructor.
Qed.

Lemma loadTracers_setup_events i p w :
  let r := loadTracers_setup E i p w in
  Forall load_event (new r)
  /\ ((val r).2 = None -> stages (new r) = drop 1 (loadTracers_steps p)).
Proof.
  cbn zeta. unfold loadTracers_setup, kprobes, tracepoints, sockfilters. run.
  set (w1 := after (after w _) _).
  destruct (attach_cases KProbe None i p w1) as (hs1 & ls1 & [e|] & i1 & ->);
    cbn [val new fst snd]; run.
  { unfold printVerifierErrorInfo. run. cbn. split; [by repeat constructor | done]. }
  set (w2 := after w1 _).
  destruct (attach_cases Tracepoint None i1 p w2) as (hs2 & ls2 & [e|] & i2 & ->);
    cbn [val new fst snd]; run.
  { unfold printVerifierErrorInfo. run. cbn. split; [by repeat constructor | done]. }
  set (w3 := after w2 _).
  destruct (attach_cases SockFilter None i2 p w3) as (hs3 & ls3 & [e|] & i3 & ->);
    cbn [val new fst snd]; run.
  { unfold printVerifierErrorInfo. run. cbn. split; [by repeat constructor | done]. }
  cbn. split; [by repeat constructor | done].
Qed.

Lemma loadTracers_loop_events i ps w :
  let r := loadTracers_loop E i ps w in
  Forall load_event (new r)
  /\ (val r = None -> stages (new r) = ps ≫= loadTracers_steps).
Proof.
  revert i w. induction ps as [|p ps IH]; intros i w; [done|].
  cbn zeta. cbn [loadTracers_loop]. run.
  destruct (loadTracers_load_events p w) as (Hf1 & Hs1).
  destruct (loadTracers_load E p w) as [[e|] o1 n1]; cbn [val override new] in *; run.
  { rewrite app_nil_r. done. }
  set (w1 := after w _).
  destruct (loadTracers_setup_events i p w1) as (Hf2 & Hs2).
  destruct (loadTracers_setup E i p w1) as [[i' [e|]] o2 n2]; cbn [val override new snd] in *; run.
  { rewrite app_nil_r, Forall_app. done. }
  set (w2 := after w1 _).
  destruct (IH i' w2) as (Hf3 & Hs3).
  split.
  - rewrite !Forall_app. done.
  - intros Hok. rewrite !stages_app, Hs1, (Hs2 eq_refl), (Hs3 Hok). by rewrite bind_cons.
Qed.

Lemma load_event_closed es : Forall load_event es -> closed es = [] /\ unlinked es = [].
Proof.
  induction 1 as [|e es He _ [IH1 IH2]]; [done|].
  destruct e; try done; cbn in *; done.
Qed.

(** X11: when [loadTracers] returns no error, every program, in order, went
    through one successful kernel load, [SetupTailCalls], [SetupTC], and
    the attachment of kprobes, tracepoints and socket filters, and
    [btf.FlushKernelSpec] was called once, as the last thing; when it
    returns an error the flush was not called.  Either way it registered no
    offsets, released no handle and signalled no teardown. *)
Theorem loadTracers_order pt w :
  let r := loadTracers E pt w in
  match val r with
  | None => stages (new r) = Programs pt ≫= loadTracers_steps
            /\ exists es, new r = es ++ [CallFlushKernelSpec] /\ Forall load_event es
  | Some _ => Forall load_event (new r)
  end.
Proof.
  cbn zeta. unfold loadTracers. run.
  set (i0 := {| offsets := None; exe := None; closables := []; modules := ∅ |}).
  destruct (loadTracers_loop_events i0 (Programs pt) w) as (Hf & Hs).
  destruct (loadTracers_loop E i0 (Programs pt) w) as [[e|] o n]; cbn [val override new] in *; run.
  - by rewrite app_nil_r.
  - split.
    + rewrite stages_app, (Hs eq_refl). cbn. by rewrite app_nil_r.
    + by exists n.
Qed.

Lemma loadTracers_keeps_handles pt w :
  closed (new (loadTracers E pt w)) = [] /\ unlinked (new (loadTracers E pt w)) = [].
Proof.
  unfold loadTracers. run.
  set (i0 := {| offsets := None; exe := None; closables := []; modules := ∅ |}).
  destruct (loadTracers_loop_events i0 (Programs pt) w) as (Hf & _).
  apply load_event_closed in Hf as [Hc Hu].
  destruct (loadTracers_loop E i0 (Programs pt) w) as [[e|] o n]; cbn [val override new] in *; run;
    by rewrite closed_app, unlinked_app, Hc, Hu.
Qed.

(** X12: only [UnlinkExecutable] releases: a sequence of [Run], [Init],
    [NewExecutable] and [NewExecutableInstance], whatever errors they return
    and also when it ends in a panic, calls [Close] on no handle and signals
    no teardown. *)
Theorem only_UnlinkExecutable_releases pt os w :
  Forall not_unlink os ->
  closed (new (ops E pt os w)) = [] /\ unlinked (new (ops E pt os w)) = [].
Proof.
  intros Hos. revert pt w. induction Hos as [|o os Ho _ IH]; intros pt w; [done|].
  cbn [ops]. rewrite new_bind, closed_app, unlinked_app.
  assert (closed (new (op E pt o w)) = [] /\ unlinked (new (op E pt o w)) = []) as [-> ->].
  { destruct o as [| |exe_ ie|ie|info]; cbn [op]; [| | | |done];
      rewrite new_bind, closed_app, unlinked_app.
    - destruct (Run_silent pt w) as (_ & -> & ->). done.
    - unfold Init. cbn. rewrite !app_nil_r. apply loadTracers_keeps_handles.
    - destruct (NewExecutable_silent E exe_ ie pt w) as (_ & -> & ->).
      by destruct (val _).
    - destruct (NewExecutableInstance_silent E ie pt w) as (_ & -> & ->).
      by destruct (val _) as [[]|]. }
  destruct (val (op E pt o w)) as [pt'|pn]; [apply IH | done].
Qed.

(** X13: an error stops [loadTracers]: programs that follow the one that
    failed are not touched, so the run is the same whatever follows it in
    [Programs]. *)
Theorem loadTracers_stops_at_error pt pt' ps' w e :
  Programs pt' = Programs pt ++ ps' ->
  val (loadTracers E pt w) = Some e ->
  loadTracers E pt' w = loadTracers E pt w.
Proof.
  intros Hps Herr. unfold loadTracers in *. rewrite Hps.
  set (i0 := {| offsets := None; exe := None; closables := []; modules := ∅ |}) in *.
  assert (forall ps i w e,
            val (loadTracers_loop E i ps w) = Some e ->
            loadTracers_loop E i (ps ++ ps') w = loadTracers_loop E i ps w) as Hloop.
  { clear. induction ps as [|p ps IH]; intros i w e He; [discriminate|].
    cbn [loadTracers_loop app] in *. rewrite val_bind in He.
    apply bind_ext_val.
    destruct (val (loadTracers_load E p w)) as [e1|]; [done|].
    rewrite val_bind in He. apply bind_ext_val.
    destruct (val (loadTracers_setup E i p _)) as [i' [e2|]]; [done|].
    by apply (IH _ _ e). }
  rewrite val_bind in Herr.
  destruct (val (loadTracers_loop E i0 (Programs pt) w)) as [e'|] eqn:Hv; [|discriminate].
  unfold mbind at 1 3, M_bind at 1 3. cbv zeta. by rewrite (Hloop _ _ _ _ Hv).
Qed.

(** X14: [RunUtilityTracer] loads the program once and only once: it calls
    [Load] once, [LoadAndAssign] at most once also when the kernel reports
    the missing helper, never writes the flag, rewrites no constants, and
    attaches kprobes and tracepoints only.  It starts [Run] and flushes the
    BTF cache exactly when it returns no error. *)
Theorem RunUtilityTracer_loads_once p pinPath w :
  let r := RunUtilityTracer E p pinPath w in
  override r = IntegrityModeOverride w
  /\ length (loads (tid p) (new r)) = 1%nat
  /\ (length (loadAndAssigns (tid p) (new r)) <= 1)%nat
  /\ rewrites (new r) = []
  /\ stages (new r) `prefix_of`
       [(StageLoaded, tid p); (StageAttach KProbe, tid p); (StageAttach Tracepoint, tid p)]
  /\ match (val r).1 with
     | None => (val r).2 = true
               /\ stages (new r) = [(StageLoaded, tid p); (StageAttach KProbe, tid p);
                                    (StageAttach Tracepoint, tid p)]
               /\ last (new r) = Some CallFlushKernelSpec
     | Some _ => (val r).2 = false /\ CallFlushKernelSpec ∉ new r
     end.
Proof.
  cbn zeta. unfold RunUtilityTracer, kprobes, tracepoints, printVerifierErrorInfo. run.
  cbn [liftR new val override].
  set (w0 := after w _).
  assert (forall ls : list (Level * string),
            loads (tid p) (map (fun l => Log l.1 l.2) ls) = []
            /\ loadAndAssigns (tid p) (map (fun l => Log l.1 l.2) ls) = []
            /\ rewrites (map (fun l => Log l.1 l.2) ls) = []
            /\ stages (map (fun l => Log l.1 l.2) ls) = []
            /\ CallFlushKernelSpec ∉ map (fun l => Log l.1 l.2) ls) as Hlogs.
  { induction ls as [|l ls (? & ? & ? & ? & ?)]; [split_and!; try done; apply not_elem_of_nil|].
    split_and!; try done. cbn. apply not_elem_of_cons. done. }
  destruct (Hlogs (Load p w0).1) as (Hl1 & Hl2 & Hl3 & Hl4 & Hl5).
  assert (forall (es1 es2 : list Event), CallFlushKernelSpec ∉ es1 -> CallFlushKernelSpec ∉ es2 ->
            CallFlushKernelSpec ∉ es1 ++ es2) as Hnotin.
  { intros es1 es2 H1 H2 [?|?]%elem_of_app; done. }
  destruct (Load p w0) as [ls [spec|err]]; cbn [fst snd] in *; run.
  2:{ rewrite !loads_app, !loadAndAssigns_app, !stages_app, Hl1, Hl2, Hl4.
      unfold rewrites. rewrite !omap_app. fold (rewrites (map (fun l => Log l.1 l.2) ls)).
      rewrite Hl3. cbn. rewrite decide_True by done.
      split_and!; try done; [lia | apply prefix_nil |].
      apply not_elem_of_cons. split; [done|]. apply Hnotin; [done|].
      apply not_elem_of_cons. split; [done|]. apply not_elem_of_nil. }
  set (w1 := after (after w0 _) _).
  destruct (LoadAndAssign_cases p spec w1) as ([e|] & ->); cbn [val override new]; run.
  { rewrite !loads_app, !loadAndAssigns_app, !stages_app, Hl1, Hl2, Hl4.
    unfold rewrites. rewrite !omap_app. fold (rewrites (map (fun l => Log l.1 l.2) ls)).
    rewrite Hl3. cbn. rewrite !decide_True by done.
    split_and!; try done; [apply prefix_nil|].
    apply not_elem_of_cons. split; [done|]. apply Hnotin; [done|].
    repeat (apply not_elem_of_cons; split; [done|]). apply not_elem_of_nil. }
  set (w2 := after w1 _).
  set (i0 := {| offsets := None; exe := None; closables := []; modules := ∅ |}).
  destruct (attach_cases KProbe None i0 p w2) as (hs1 & ls1 & [e|] & i1 & ->);
    cbn [val new override fst snd]; run.
  { rewrite !loads_app, !loadAndAssigns_app, !stages_app, Hl1, Hl2, Hl4.
    unfold rewrites. rewrite !omap_app. fold (rewrites (map (fun l => Log l.1 l.2) ls)).
    rewrite Hl3. cbn. rewrite !decide_True by done.
    split_and!; try done; [do 2 apply prefix_cons; apply prefix_nil|].
    apply not_elem_of_cons. split; [done|]. apply Hnotin; [done|].
    repeat (apply not_elem_of_cons; split; [done|]). apply not_elem_of_nil. }
  set (w3 := after w2 _).
  destruct (attach_cases Tracepoint None i1 p w3) as (hs2 & ls2 & [e|] & i2 & ->);
    cbn [val new override fst snd]; run.
  { rewrite !loads_app, !loadAndAssigns_app, !stages_app, Hl1, Hl2, Hl4.
    unfold rewrites. rewrite !omap_app. fold (rewrites (map (fun l => Log l.1 l.2) ls)).
    rewrite Hl3. cbn. rewrite !decide_True by done.
    split_and!; try done.
    apply not_elem_of_cons. split; [done|]. apply Hnotin; [done|].
    repeat (apply not_elem_of_cons; split; [done|]). apply not_elem_of_nil. }
  rewrite !loads_app, !loadAndAssigns_app, !stages_app, Hl1, Hl2, Hl4.
  unfold rewrites. rewrite !omap_app. fold (rewrites (map (fun l => Log l.1 l.2) ls)).
  rewrite Hl3. cbn. rewrite !decide_True by done.
  split_and!; try done.
  by rewrite app_comm_cons, last_app.
Qed.

End ebpf_more.

Section ebpf_more_samples.
Import common goexec ebpf samples.

Lemma NewExecutable_then_UnlinkExecutable_sample :
  (val (NewExecutable all_attached "/bin/app" ie1 running0 start)).2 = None
  /\ let r := NewExecutable all_attached "/bin/app" ie1 running0 start in
     let u := UnlinkExecutable all_attached (ie_FileInfo ie1) (val r).1 start in
     match val u with
     | Returns pt' =>
         closed (new u) = attached_handles (new r)
         /\ (exists inos, inos ≡ₚ elements (list_to_set (attached_libs (new r)) : gset N)
                          /\ unlinked (new u) = signals (Programs running0) inos
                          /\ (log running0 = None ->
                              new u = map (fun c => CallClose c None)
                                        (attached_handles (new r))
                                      ++ signal_events (Programs running0) inos))
         /\ Instrumentables pt' = delete (Ino (ie_FileInfo ie1)) (Instrumentables running0)
         /\ (Instrumentables running0 !! Ino (ie_FileInfo ie1) = None -> pt' = running0)
     | Panics _ =>
         log running0 = None /\ stopped_at_failure (attached_handles (new r)) (new u)
     end
     /\ (is_Some (log running0) -> exists pt', val u = Returns pt').
Proof.
  split; [reflexivity|].
  apply (NewExecutable_then_UnlinkExecutable all_attached "/bin/app" ie1 running0 start start).
  reflexivity.
Defined.

Example NewExecutable_then_UnlinkExecutable_run :
  let r := NewExecutable all_attached "/bin/app" ie1 running0 start in
  attached_handles (new r) = [5; 6]%N
  /\ UnlinkExecutable all_attached info1 (val r).1 start
     = {| val := Returns running0; override := false;
          new := [CallClose 5 None; CallClose 6 None; CallUnlinkInstrumentedLib 1 100]%N |}.
Proof. by vm_compute. Qed.

Lemma NewExecutableInstance_keeps_entry_sample :
  Instrumentables running1 !! Ino (ie_FileInfo ie1) = Some instr1
  /\ let r := NewExecutableInstance uprobes_refused ie1 running1 start in
     exists pt' err i',
       val r = Returns (pt', err)
       /\ Instrumentables pt' !! Ino (ie_FileInfo ie1) = Some i'
       /\ closables i' = closables instr1 ++ attached_handles (new r)
       /\ modules i' = modules instr1 ∪ list_to_set (attached_libs (new r))
       /\ stages (new r)
            `prefix_of` map (fun p => (StageAttach UProbe, tid p)) (Programs running1)
       /\ (err = None ->
           stages (new r) = map (fun p => (StageAttach UProbe, tid p)) (Programs running1))
       /\ refusal_last err (new r)
       /\ let u := UnlinkExecutable uprobes_refused (ie_FileInfo ie1) pt' start in
          closed (new u) `prefix_of` closables instr1 ++ attached_handles (new r)
          /\ (forall pt'', val u = Returns pt'' ->
                closed (new u) = closables instr1 ++ attached_handles (new r))
          /\ (is_Some (log running1) -> exists pt'', val u = Returns pt'')
          /\ (forall pn, val u = Panics pn ->
                log running1 = None
                /\ stopped_at_failure (closables instr1 ++ attached_handles (new r))
                     (new u)).
Proof.
  split; [reflexivity|].
  apply (NewExecutableInstance_keeps_entry uprobes_refused ie1 running1 start start instr1).
  reflexivity.
Defined.

Example NewExecutableInstance_refused_run :
  let r := NewExecutableInstance uprobes_refused ie1 running1 start in
  new r = [CallAttach UProbe 1 [6%N] [100%N] (Some "attach refused");
           PrintVerifierErrorInfo "attach refused"]
  /\ exists pt', val r = Returns (pt', Some "attach refused")
       /\ closed (new (UnlinkExecutable uprobes_refused info1 pt' start)) = [1; 2; 3; 6]%N.
Proof. cbv zeta. split; [reflexivity|]. eexists. split; reflexivity. Qed.

(** On the nil logger an unknown inode makes [NewExecutableInstance] panic
    in the call that would warn. *)
Example NewExecutableInstance_unknown_inode :
  NewExecutableInstance quiet ie1 pt0 start
  = {| val := Panics NilPointerDereference; override := false; new := [] |}
  /\ NewExecutableInstance quiet ie1 running0 start
     = {| val := Returns (running0, None); override := false;
          new := [Log LevelWarn "Attempted to update non-existent tracer"] |}.
Proof. split; reflexivity. Qed.

Lemma only_UnlinkExecutable_releases_sample :
  Forall not_unlink
    [OpInit; OpNewExecutable "/bin/app" ie1; OpRun; OpNewExecutableInstance ie1]
  /\ closed (new (ops all_attached pt0
                    [OpInit; OpNewExecutable "/bin/app" ie1; OpRun;
                     OpNewExecutableInstance ie1]
                    start)) = []
  /\ unlinked (new (ops all_attached pt0
                      [OpInit; OpNewExecutable "/bin/app" ie1; OpRun;
                       OpNewExecutableInstance ie1]
                      start)) = [].
Proof.
  assert (Forall not_unlink
            [OpInit; OpNewExecutable "/bin/app" ie1; OpRun; OpNewExecutableInstance ie1])
    as H by (repeat constructor).
  split; [exact H|].
  exact (only_UnlinkExecutable_releases all_attached pt0 _ start H).
Defined.

Lemma loadTracers_stops_at_error_sample :
  Programs pt2 = Programs pt0 ++ [tracer2]
  /\ val (loadTracers never_loads pt0 start)
     = Some "loading and assigning BPF objects: permission denied"
  /\ loadTracers never_loads pt2 start = loadTracers never_loads pt0 start.
Proof.
  split; [reflexivity|]. split; [reflexivity|].
  apply (loadTracers_stops_at_error never_loads pt0 pt2 [tracer2] start
           "loading and assigning BPF objects: permission denied");
    reflexivity.
Defined.

End ebpf_more_samples.

(** ** The generated objects of secexec *)
Section secexec_facts.
Import common ebpf secexec.
Context {CollectionSpec : Type} (E : Env CollectionSpec).

Ltac run :=
  repeat (rewrite ?new_bind, ?val_bind, ?override_bind, ?override_after, ?after_bind;
          cbn [emit get setIntegrityModeOverride mret M_ret new val override]).

Lemma Close_cases c w :
  exists res,
    Close E c w
    = {| val := res; override := IntegrityModeOverride w; new := [CallClose c res] |}.
Proof. by eexists. Qed.

Lemma closes_in_order_nil w :
  closes_in_order [] (_Bpf_debugClose [] w).
Proof. done. Qed.

Lemma closes_in_order_step (m : M (option error)) ms l1 l2 :
  (forall w, closes_in_order l1 (m w)) ->
  (forall w, closes_in_order l2 (_Bpf_debugClose ms w)) ->
  forall w, closes_in_order (l1 ++ l2) (_Bpf_debugClose (m :: ms) w).
Proof.
  intros H1 H2 w. cbn [_Bpf_debugClose].
  unfold closes_in_order in *. run.
  pose proof (H1 w) as Hm. set (w1 := after w (m w)) in *.
  destruct (m w) as [[e|] o1 n1]; cbn [val new override] in *.
  - run. destruct Hm as (pre & c & rest & -> & ->).
    exists pre, c, (rest ++ l2). split; [by rewrite <-app_assoc | by rewrite app_nil_r].
  - subst n1. pose proof (H2 w1) as Hms.
    destruct (_Bpf_debugClose ms w1) as [[e|] o2 n2]; cbn [val new override] in *.
    + destruct Hms as (pre & c & rest & -> & ->).
      exists (l1 ++ pre), c, rest. split; [by rewrite <-app_assoc|].
      by rewrite map_app, <-app_assoc.
    + subst n2. by rewrite map_app.
Qed.

Lemma Close_closes_in_order c w :
  closes_in_order [c] (Close E c w).
Proof.
  destruct (Close_cases c w) as ([e|] & ->); cbn; [|done].
  by exists [], c, [].
Qed.

(** X15: [Close] on the generated objects closes the three programs in the
    order of their fields, then the map, and stops at the first [Close] that
    fails: it returns that error and leaves the handles after it open.  It
    returns no error exactly when all four were closed. *)
Theorem bpf_debugObjects_Close_stops o w :
  let r := bpf_debugObjects_Close E o w in
  match val r with
  | None => new r = map (fun c => CallClose c None) (handles_of o)
  | Some e => exists cs c rest,
      handles_of o = cs ++ c :: rest
      /\ new r = map (fun c => CallClose c None) cs ++ [CallClose c (Some e)]
  end.
Proof.
  cbn zeta. change (closes_in_order (handles_of o) (bpf_debugObjects_Close E o w)).
  revert w. unfold bpf_debugObjects_Close, handles_of.
  apply (closes_in_order_step _ _ [_; _; _] [_]).
  - unfold bpf_debugPrograms_Close.
    apply (closes_in_order_step _ _ [_] [_; _]); [apply Close_closes_in_order|].
    apply (closes_in_order_step _ _ [_] [_]); [apply Close_closes_in_order|].
    apply (closes_in_order_step _ _ [_] []); [apply Close_closes_in_order|].
    apply closes_in_order_nil.
  - apply (closes_in_order_step _ _ [_] []); [|apply closes_in_order_nil].
    unfold bpf_debugMaps_Close.
    apply (closes_in_order_step _ _ [_] []); [apply Close_closes_in_order|].
    apply closes_in_order_nil.
Qed.

End secexec_facts.

(** ** The reporter over every method *)
Section imetrics_more.
Import imetrics.

Lemma reports_snoc p rs r : reports p (rs ++ [r]) = report (reports p rs) r.
Proof. unfold reports. by rewrite foldl_app. Qed.

Lemma flushed_snoc rs r :
  flushed (rs ++ [r])
  = flushed rs ++ match r with RTracerFlush n => [float64 n] | _ => [] end.
Proof. unfold flushed. rewrite omap_app. by destruct r. Qed.

Lemma add_durations_snoc kind rs r :
  add_durations kind (rs ++ [r])
  = add_durations kind rs
    ++ match r with
       | RInformerAddDuration k d => if decide (k = kind) then [d] else []
       | _ => []
       end.
Proof.
  unfold add_durations. rewrite omap_app. f_equal.
  destruct r; try done. cbn. by destruct (decide _).
Qed.

Lemma metric_export_errors_snoc rs r :
  metric_export_errors (rs ++ [r])
  = metric_export_errors rs
    ++ match r with ROTELMetricExportError e => [e] | _ => [] end.
Proof. unfold metric_export_errors. rewrite omap_app. by destruct r. Qed.

(** X16: whatever methods are called on a new reporter, in whatever order, the
    batch-length histogram holds exactly the lengths given to [TracerFlush],
    oldest first, each converted with [float64]; no other method observes on
    it, renames it or changes its buckets. *)
Theorem reports_tracerFlushes (cfg : PrometheusConfig) (rs : list Report) :
  tracerFlushes (reports (NewPrometheusReporter cfg) rs)
  = {| hist_name := "beyla_ebpf_tracer_flushes";
       Buckets := pipelineBufferLengths;
       observations := flushed rs |}.
Proof.
  induction rs as [|r rs IH] using rev_ind; [done|].
  rewrite reports_snoc, flushed_snoc.
  destruct r; cbn [report]; rewrite ?app_nil_r; try exact IH.
  unfold TracerFlush, with_tracerFlushes, Observe. cbn [tracerFlushes].
  by rewrite IH.
Qed.

(** X17: the add-duration histogram vector has a child for a kind exactly when
    [InformerAddDuration] was called with that kind; the child has the default
    buckets and holds the durations reported for that kind, oldest first.
    Durations of other kinds and update durations never reach it. *)
Theorem reports_informerAddDuration (cfg : PrometheusConfig) (rs : list Report) (kind : string) :
  informerAddDuration (reports (NewPrometheusReporter cfg) rs) !! kind
  = if decide (add_durations kind rs = []) then None
    else Some {| hist_name := "beyla_k8s_informer_add_duration_seconds";
                 Buckets := DefBuckets;
                 observations := add_durations kind rs |}.
Proof.
  induction rs as [|r rs IH] using rev_ind; [done|].
  rewrite reports_snoc, add_durations_snoc.
  destruct r; cbn [report]; rewrite ?app_nil_r; try exact IH.
  unfold InformerAddDuration. cbn [informerAddDuration].
  destruct (decide (kind0 = kind)) as [->|Hk].
  - rewrite lookup_insert_eq, IH.
    rewrite (decide_False (P := _ ++ [_] = [])) by (by destruct (add_durations kind rs)).
    by destruct (decide (add_durations kind rs = [])) as [->|].
  - rewrite lookup_insert_ne by done. by rewrite app_nil_r.
Qed.

(** X18: the metric-export error counter has one child per distinct error text
    passed to [OTELMetricExportError], and no other: trace-export errors and
    the other methods never create or remove a child. *)
Theorem reports_otelMetricExportErrs_labels (cfg : PrometheusConfig) (rs : list Report) :
  dom (otelMetricExportErrs (reports (NewPrometheusReporter cfg) rs))
  = list_to_set (metric_export_errors rs).
Proof.
  induction rs as [|r rs IH] using rev_ind; [apply dom_empty_L|].
  rewrite reports_snoc, metric_export_errors_snoc.
  destruct r; cbn [report]; rewrite ?app_nil_r; try exact IH.
  unfold OTELMetricExportError, add_label. cbn [otelMetricExportErrs].
  rewrite dom_insert_L, IH, list_to_set_app_L. cbn.
  rewrite (right_id_L ∅ (∪)). apply (comm_L (∪)).
Qed.

(** X19: the build-info gauge of a reporter is 1 once [Start] was called and 0
    before; no other method sets it. *)
Theorem reports_beylaInfo (cfg : PrometheusConfig) (rs : list Report) :
  beylaInfo (reports (NewPrometheusReporter cfg) rs)
  = if started rs then 1%float else 0%float.
Proof.
  induction rs as [|r rs IH] using rev_ind; [done|].
  rewrite reports_snoc. unfold started in *. rewrite existsb_app. cbn [existsb].
  destruct r; cbn [report]; rewrite ?orb_false_r; try exact IH.
  by rewrite orb_true_r.
Qed.

End imetrics_more.
